(** * Replay buffers of torchrl: a shallow embedding and its properties

    Source: [torchrl/data/replay_buffers/replay_buffers.py].

    - [ReplayBuffer] is the circular store: a Python list [_storage], an
      integer [_capacity] and the write position [_cursor].
    - [PrioritizedReplayBuffer] adds two segment trees and [_max_priority].

    Python integers are [Z]; Python lists are Rocq lists indexed the Python
    way (a negative index counts from the end, an index out of range raises
    [IndexError]).  A method is a function from the object's state to an
    outcome and the state it leaves behind, so that what a raised exception
    leaves in the object can be stated.  float64 values are read as real
    numbers.

    The locks, the prefetch queue and [pin_memory] do not take part in the
    properties below: a method is run alone.  The collate function is an
    argument of the model wherever the code calls it, and so is
    [isinstance(data, list)], the test that sends a payload read at an
    integer index to the collate function; [stack_tensors], the default
    collate function, is parametric in [torch.stack].  [_sample] of the
    prioritized buffer is given twice: as the selection of slots, payloads
    and weights, and as the whole method, which collates the batch and
    converts the weights.  [to_numpy] and [to_torch] belong to
    [torchrl.data.replay_buffers.utils], which is not among the sources:
    the model has one type of array, so [to_numpy] does not appear, and
    [to_torch], which ends the reads of the prioritized buffer and may
    raise, is an argument of the model there.  The draws of
    [np.random.uniform] and [np.random.randint] in [_sample] are arguments
    of the model.

    float64 values are read as real numbers, without rounding, overflow or
    underflow.  Of a computed weight the properties therefore state the
    expression it is the value of and the bounds [0 <= w <= 1], which
    rounding keeps; they state neither [0 < w] nor that two weights
    differ. *)

From Stdlib Require Import Reals Lra.
From stdpp Require Import base list.
From Stdlib Require Import ZArith Lia.

Open Scope Z_scope.

(** ** Outcomes and the state-and-exception monad *)

(** The exception classes the code raises, by their Python names.
    [Exception_] is the bare [Exception] of [ReplayBuffer.extend]. *)
Inductive exn : Type :=
  | Exception_
  | IndexError
  | ValueError
  | RuntimeError
  | TypeError
  | ZeroDivisionError.

Inductive result (A : Type) : Type :=
  | Ok (a : A)
  | Raise (e : exn).
Arguments Ok {A} a.
Arguments Raise {A} e.

(** The error kinds of the specification, and the kind under which an
    exception raised on an argument falls: the checks of the constructors,
    of [extend] and of the priority arguments give InvalidArgument, a list
    index out of range gives OutOfRange.  ([_sample] raises [RuntimeError]
    on the state of the trees, which the specification files under
    InvalidState; no property below classifies that exception.) *)
Inductive error_kind : Type := InvalidArgument | OutOfRange | InvalidState | OtherError.

Definition kind_of (e : exn) : error_kind :=
  match e with
  | Exception_ | ValueError | RuntimeError | TypeError => InvalidArgument
  | IndexError => OutOfRange
  | ZeroDivisionError => OtherError
  end.

Definition M (S A : Type) : Type := S → result A * S.

Definition ret {S A} (a : A) : M S A := λ s, (Ok a, s).
Definition raise {S A} (e : exn) : M S A := λ s, (Raise e, s).
Definition bind {S A B} (m : M S A) (k : A → M S B) : M S B :=
  λ s, match m s with
       | (Ok a, s') => k a s'
       | (Raise e, s') => (Raise e, s')
       end.
Definition get {S} : M S S := λ s, (Ok s, s).
Definition modify {S} (f : S → S) : M S unit := λ s, (Ok tt, f s).
Definition lift {S A} (r : result A) : M S A := λ s, (r, s).

Notation "'let!' x ':=' m 'in' k" := (bind m (λ x, k))
  (at level 10, x name, m at level 100, k at level 200).
Notation "m ';;' k" := (bind m (λ _, k))
  (at level 100, k at level 200, right associativity).

(** [for i, v in enumerate(vs): body(i, v)], counting from [i]. *)
Fixpoint for_enumerate {S B} (i : Z) (vs : list B) (body : Z → B → M S unit)
  : M S unit :=
  match vs with
  | [] => ret tt
  | v :: vs' => body i v ;; for_enumerate (i + 1) vs' body
  end.

(** ** Python and numpy primitives *)

Module Py.

(** [len(l)] as a Python integer. *)
Definition len {A} (l : list A) : Z := Z.of_nat (length l).

(** The position a Python index denotes in a list of [n] elements. *)
Definition norm_index (n : nat) (i : Z) : option nat :=
  if bool_decide (0 ≤ i < Z.of_nat n) then Some (Z.to_nat i)
  else if bool_decide (- Z.of_nat n ≤ i < 0) then Some (Z.to_nat (Z.of_nat n + i))
  else None.

(** [l[i]] *)
Definition getitem {A} (l : list A) (i : Z) : result A :=
  match norm_index (length l) i with
  | Some k => match l !! k with Some x => Ok x | None => Raise IndexError end
  | None => Raise IndexError
  end.

(** [l[i] = v] *)
Definition setitem {A} (l : list A) (i : Z) (v : A) : result (list A) :=
  match norm_index (length l) i with
  | Some k => Ok (<[k := v]> l)
  | None => Raise IndexError
  end.

(** The position a slice bound [d] denotes in a sequence of [n] elements. *)
Definition slice_bound (n : nat) (d : Z) : nat :=
  if bool_decide (d < 0) then Z.to_nat (Z.max 0 (Z.of_nat n + d))
  else Z.to_nat (Z.min d (Z.of_nat n)).

(** [l[:d]] and [l[d:]] *)
Definition slice_to {A} (l : list A) (d : Z) : list A :=
  take (slice_bound (length l) d) l.
Definition slice_from {A} (l : list A) (d : Z) : list A :=
  drop (slice_bound (length l) d) l.

(** [a % b] *)
Definition mod_ (a b : Z) : result Z :=
  if bool_decide (b = 0) then Raise ZeroDivisionError else Ok (a mod b).

(** [np.arange(a, b)] *)
Definition arange (a b : Z) : list Z := seqZ a (b - a).

(** [np.empty(n, dtype=np.int64)]: the contents are unspecified; every
    element is assigned before the array is used. *)
Definition empty (n : Z) : list Z := replicate (Z.to_nat n) 0.

(** numpy broadcasts a source of the target's length, or of length 1. *)
Definition broadcast (n : nat) (src : list Z) : result (list Z) :=
  if bool_decide (length src = n) then Ok src
  else match src with
       | [x] => Ok (replicate n x)
       | _ => Raise ValueError
       end.

(** [index[:d] = src] and [index[d:] = src] *)
Definition assign_to (index : list Z) (d : Z) (src : list Z) : result (list Z) :=
  let k := slice_bound (length index) d in
  match broadcast k src with
  | Ok src' => Ok (src' ++ drop k index)
  | Raise e => Raise e
  end.
Definition assign_from (index : list Z) (d : Z) (src : list Z) : result (list Z) :=
  let k := slice_bound (length index) d in
  match broadcast (length index - k) src with
  | Ok src' => Ok (take k index ++ src')
  | Raise e => Raise e
  end.

End Py.

(** ** [class ReplayBuffer] *)

Section ReplayBuffer.
Context {A : Type}.

(** The fields the ring uses.  [_collate_fn], [_pin_memory], the prefetch
    queue and the locks do not take part in the properties below. *)
Record ReplayBuffer : Type := mkReplayBuffer {
  _storage : list A;
  _capacity : Z;
  _cursor : Z;
}.

Definition set_storage (l : list A) (self : ReplayBuffer) : ReplayBuffer :=
  mkReplayBuffer l (_capacity self) (_cursor self).
Definition set_cursor (c : Z) (self : ReplayBuffer) : ReplayBuffer :=
  mkReplayBuffer (_storage self) (_capacity self) c.

(** [ReplayBuffer.__init__]: no argument is checked. *)
Definition ReplayBuffer_init (size : Z) : result ReplayBuffer :=
  Ok (mkReplayBuffer [] size 0).

(** [ReplayBuffer.__len__] *)
Definition ReplayBuffer_len (self : ReplayBuffer) : Z := Py.len (_storage self).

(** [self._storage[i] = v] *)
Definition storage_setitem (i : Z) (v : A) : M ReplayBuffer unit :=
  λ self, match Py.setitem (_storage self) i v with
          | Ok l => (Ok tt, set_storage l self)
          | Raise e => (Raise e, self)
          end.

(** [self._storage += vs] *)
Definition storage_iadd (vs : list A) : M ReplayBuffer unit :=
  modify (λ self, set_storage (_storage self ++ vs) self).



(** [ReplayBuffer.__getitem__] at an array of indices, before collation. *)
Fixpoint gather (l : list A) (index : list Z) : result (list A) :=
  match index with
  | [] => Ok []
  | i :: index' =>
      match Py.getitem l i with
      | Ok x => match gather l index' with
                | Ok xs => Ok (x :: xs)
                | Raise e => Raise e
                end
      | Raise e => Raise e
      end
  end.

(** [ReplayBuffer.add] *)
Definition ReplayBuffer_add (data : A) : M ReplayBuffer Z :=
  let! self := get in
  let ret_ := _cursor self in
  (if bool_decide (_cursor self >= Py.len (_storage self))
   then storage_iadd [data]
   else storage_setitem (_cursor self) data) ;;
  let! c := lift (Py.mod_ (_cursor self + 1) (_capacity self)) in
  modify (set_cursor c) ;;
  ret ret_.

(** [ReplayBuffer.extend] *)
Definition ReplayBuffer_extend (data : list A) : M ReplayBuffer (list Z) :=
  if bool_decide (Py.len data = 0) then raise Exception_ else
  let! self := get in
  let cur_size := Py.len (_storage self) in
  let batch_size := Py.len data in
  let cursor := _cursor self in
  let capacity := _capacity self in
  if bool_decide (cur_size + batch_size ≤ capacity) then
    let index := Py.arange cur_size (cur_size + batch_size) in
    storage_iadd data ;;
    let! c := lift (Py.mod_ (cursor + batch_size) capacity) in
    modify (set_cursor c) ;;
    ret index
  else if bool_decide (cur_size < capacity) then
    let d := capacity - cur_size in
    let index := Py.empty batch_size in
    let! index := lift (Py.assign_to index d (Py.arange cur_size capacity)) in
    let! index := lift (Py.assign_from index d (Py.arange 0 (batch_size - d))) in
    storage_iadd (Py.slice_to data d) ;;
    for_enumerate 0 (Py.slice_from data d) (λ i v, storage_setitem i v) ;;
    modify (set_cursor (batch_size - d)) ;;
    ret index
  else if bool_decide (cursor + batch_size ≤ capacity) then
    let index := Py.arange cursor (cursor + batch_size) in
    for_enumerate 0 data (λ i v, storage_setitem (cursor + i) v) ;;
    let! c := lift (Py.mod_ (cursor + batch_size) capacity) in
    modify (set_cursor c) ;;
    ret index
  else
    let d := capacity - cursor in
    let index := Py.empty batch_size in
    let! index := lift (Py.assign_to index d (Py.arange cursor capacity)) in
    let! index := lift (Py.assign_from index d (Py.arange 0 (batch_size - d))) in
    for_enumerate 0 (Py.slice_to data d) (λ i v, storage_setitem (cursor + i) v) ;;
    for_enumerate 0 (Py.slice_from data d) (λ i v, storage_setitem i v) ;;
    modify (set_cursor (batch_size - d)) ;;
    ret index.

(** A sequence of [add] calls, one per payload, in order; the outcome is
    the list of returned slots. *)
Fixpoint add_each (data : list A) : M ReplayBuffer (list Z) :=
  match data with
  | [] => ret []
  | x :: data' =>
      let! i := ReplayBuffer_add x in
      let! is_ := add_each data' in
      ret (i :: is_)
  end.

(** The calls that write to the ring, and a sequence of them run in order;
    a call that raises ends the sequence. *)
Inductive call : Type :=
  | Add (x : A)
  | Extend (xs : list A).

Definition payloads (c : call) : Z :=
  match c with Add _ => 1 | Extend xs => Py.len xs end.

Definition written (calls : list call) : Z :=
  foldr (λ c n, payloads c + n) 0 calls.

Definition run_call (c : call) : M ReplayBuffer unit :=
  match c with
  | Add x => ReplayBuffer_add x ;; ret tt
  | Extend xs => ReplayBuffer_extend xs ;; ret tt
  end.

Fixpoint run_calls (calls : list call) : M ReplayBuffer unit :=
  match calls with
  | [] => ret tt
  | c :: calls' => run_call c ;; run_calls calls'
  end.

(** An [extend] batch of between 1 and [c] payloads. *)
Definition batch_within (c : Z) (cl : call) : Prop :=
  match cl with Add _ => True | Extend xs => 0 < Py.len xs ≤ c end.

(** The ring after [T] payloads written to a buffer of capacity [c]. *)
Definition ring_inv (c T : Z) (self : ReplayBuffer) : Prop :=
  _capacity self = c ∧
  Py.len (_storage self) = Z.min T c ∧
  _cursor self = T mod c.

(** A ring in which the cursor is a slot and follows the length until the
    storage is full. *)
Definition ring_wf (self : ReplayBuffer) : Prop :=
  0 < _capacity self ∧
  0 ≤ _cursor self < _capacity self ∧
  Py.len (_storage self) ≤ _capacity self ∧
  (Py.len (_storage self) < _capacity self → _cursor self = Py.len (_storage self)).

(** [l] with the elements [vs] written over positions [p, p + 1, ...]. *)
Definition splice (p : nat) (vs : list A) (l : list A) : list A :=
  take p l ++ vs ++ drop (p + length vs) l.

End ReplayBuffer.
Arguments ReplayBuffer A : clear implicits.
Arguments call A : clear implicits.

(** ** Floating-point values, read as reals *)

Open Scope R_scope.

#[global] Instance Rlt_decision (x y : R) : Decision (x < y) := Rlt_dec x y.
#[global] Instance Rle_decision (x y : R) : Decision (x <= y) := Rle_dec x y.
#[global] Instance Req_decision : EqDecision R := Req_dec_T.

(** Python's [max(a, b)]: the first argument unless the second is greater. *)
Definition py_max (a b : R) : R := if bool_decide (a < b) then b else a.

(** [np.power(x, y)] and [x ** y] on floats.  On a positive base this is
    the real power; on another base with an integral exponent it is the
    integer power.  Where numpy yields [inf] or [nan] there is no real
    value and the model yields 0; no property below rests on that value. *)
Definition np_power (x y : R) : R :=
  if bool_decide (0 < x) then Rpower x y
  else if bool_decide (y = IZR (Int_part y)) then powerRZ x (Int_part y)
  else 0.

(** A float that may be [+inf], the identity of the min tree. *)
Inductive float_inf : Type :=
  | Fin (r : R)
  | PosInf.

Definition min_inf (a b : float_inf) : float_inf :=
  match a, b with
  | Fin x, Fin y => Fin (Rmin x y)
  | Fin x, PosInf => Fin x
  | PosInf, _ => b
  end.

(** [p <= 0] for a float that may be [+inf] *)
Definition le0_inf (p : float_inf) : bool :=
  match p with Fin x => bool_decide (x <= 0) | PosInf => false end.

(** [w / p] for a finite [w] and a [p] that may be [+inf] *)
Definition div_inf (w : R) (p : float_inf) : R :=
  match p with Fin m => w / m | PosInf => 0 end.

(** The index argument of the trees and of [update_priority]: a Python
    [int], or an array of slots. *)
Inductive index : Type :=
  | IInt (i : Z)
  | IArr (idx : list Z).

(** The priority argument: a float, or a one-dimensional array. *)
Inductive priority : Type :=
  | PFloat (p : R)
  | PArr (ps : list R).

Definition index_list (ix : index) : list Z :=
  match ix with IInt i => [i] | IArr idx => idx end.

(** [np.max(priority)]; numpy raises [ValueError] on an empty array. *)
Definition np_max (p : priority) : result R :=
  match p with
  | PFloat x => Ok x
  | PArr [] => Raise ValueError
  | PArr (x :: xs) => Ok (foldl Rmax x xs)
  end.

(** [np.power(priority + eps, alpha)], element by element. *)
Definition stored_priority (eps alpha : R) (p : priority) : priority :=
  match p with
  | PFloat x => PFloat (np_power (x + eps) alpha)
  | PArr xs => PArr ((λ x, np_power (x + eps) alpha) <$> xs)
  end.

(** [(priority < 0).any()] *)
Definition any_negative (ps : list R) : bool :=
  existsb (λ p, bool_decide (p < 0)) ps.

(** ** Segment trees *)

Module SegmentTree.

(** [SumSegmentTree] and [MinSegmentTree] are imported from the native
    module [torchrl._torchrl], which is not among the sources.  A tree is
    modelled by the list of its [N] leaves; the internal nodes of the
    specification are a function of the leaves. *)

(** Modelled from the spec: the leaves of a tree are the indices
    [0 <= i < N]. *)
Definition in_range {V} (t : list V) (i : Z) : bool :=
  bool_decide (0 <= i < Z.of_nat (length t))%Z.

(** Modelled from the spec: the constructor, missing from the sources,
    builds a tree of [size] leaves that hold the identity of the aggregate
    (0 for the sum, [+inf] for the min). *)
Definition new {V} (identity : V) (size : Z) : list V :=
  replicate (Z.to_nat size) identity.

(** Modelled from the spec: the leaf and value pairs of the vectorised
    write [tree[index] = priority], missing from the sources.  A float or
    an array of one element goes to every slot of the index; otherwise
    slots and values are paired in order. *)
Definition writes (ix : index) (p : priority) : result (list (Z * R)) :=
  match p with
  | PFloat x => Ok ((λ i, (i, x)) <$> index_list ix)
  | PArr [x] => Ok ((λ i, (i, x)) <$> index_list ix)
  | PArr xs =>
      if bool_decide (length xs = length (index_list ix))
      then Ok (zip (index_list ix) xs)
      else Raise ValueError
  end.

(** Modelled from the spec: the point writes of a vectorised write, in
    order, so that the last write to a leaf wins. *)
Definition write_all {V} (inj : R → V) (ws : list (Z * R)) (t : list V) : list V :=
  foldl (λ t w, <[Z.to_nat (fst w) := inj (snd w)]> t) t ws.

(** Modelled from the spec: [tree[index] = priority], missing from the
    sources.  The spec defines a write only for [0 <= i < N]; the model
    rejects a call that writes elsewhere and leaves the tree as it was. *)
Definition setitem {V} (inj : R → V) (ix : index) (p : priority) (t : list V)
  : result (list V) :=
  match writes ix p with
  | Ok ws =>
      if forallb (λ w, in_range t (fst w)) ws
      then Ok (write_all inj ws t)
      else Raise IndexError
  | Raise e => Raise e
  end.

(** Modelled from the spec: [tree[i]], the value of leaf [i], missing from
    the sources. *)
Definition getitem {V} (t : list V) (i : Z) : result V :=
  if in_range t i
  then match t !! Z.to_nat i with Some x => Ok x | None => Raise IndexError end
  else Raise IndexError.

(** Modelled from the spec: the leaves in [[lo, hi)], over which a query
    aggregates. *)
Definition range {V} (t : list V) (lo hi : Z) : list V :=
  take (Z.to_nat hi - Z.to_nat lo)%nat (drop (Z.to_nat lo) t).

(** Modelled from the spec: [sum_tree.query(lo, hi)], missing from the
    sources, returns the sum of the leaves in [[lo, hi)]. *)
Definition sum_query (t : list R) (lo hi : Z) : R :=
  foldr Rplus 0 (range t lo hi).

(** Modelled from the spec: [min_tree.query(lo, hi)], missing from the
    sources, returns the minimum of the leaves in [[lo, hi)], [+inf] when
    there is none. *)
Definition min_query (t : list float_inf) (lo hi : Z) : float_inf :=
  foldr min_inf PosInf (range t lo hi).

(** Modelled from the spec: [sum_tree.scan_lower_bound(mass)] for one
    mass, missing from the sources, returns the smallest leaf [i] whose
    prefix sum through [i] is strictly greater than [mass].  [i] is the
    position of the head of [t], [acc] the sum of the leaves before. *)
Fixpoint scan (t : list R) (i : Z) (acc mass : R) : option Z :=
  match t with
  | [] => None
  | x :: t' =>
      if bool_decide (mass < acc + x) then Some i
      else scan t' (i + 1)%Z (acc + x) mass
  end.

(** Modelled from the spec: the vectorised scan, missing from the sources.
    A mass at or above the total has no leaf; the spec gives the scan as
    failing on a tree without mass, and the model fails there. *)
Fixpoint scan_lower_bound (t : list R) (mass : list R) : result (list Z) :=
  match mass with
  | [] => Ok []
  | m :: mass' =>
      match scan t 0%Z 0 m with
      | Some i => match scan_lower_bound t mass' with
                  | Ok idx => Ok (i :: idx)
                  | Raise e => Raise e
                  end
      | None => Raise RuntimeError
      end
  end.

End SegmentTree.

(** ** [class PrioritizedReplayBuffer] *)

Section PrioritizedReplayBuffer.
Context {A : Type}.

Record PrioritizedReplayBuffer : Type := mkPrioritizedReplayBuffer {
  ring : ReplayBuffer A;
  _alpha : R;
  _beta : R;
  _eps : R;
  _sum_tree : list R;
  _min_tree : list float_inf;
  _max_priority : R;
}.

Definition set_ring (r : ReplayBuffer A) (self : PrioritizedReplayBuffer) :=
  mkPrioritizedReplayBuffer r (_alpha self) (_beta self) (_eps self)
    (_sum_tree self) (_min_tree self) (_max_priority self).
Definition set_sum_tree (t : list R) (self : PrioritizedReplayBuffer) :=
  mkPrioritizedReplayBuffer (ring self) (_alpha self) (_beta self) (_eps self)
    t (_min_tree self) (_max_priority self).
Definition set_min_tree (t : list float_inf) (self : PrioritizedReplayBuffer) :=
  mkPrioritizedReplayBuffer (ring self) (_alpha self) (_beta self) (_eps self)
    (_sum_tree self) t (_max_priority self).
Definition set_max_priority (p : R) (self : PrioritizedReplayBuffer) :=
  mkPrioritizedReplayBuffer (ring self) (_alpha self) (_beta self) (_eps self)
    (_sum_tree self) (_min_tree self) p.

(** A method of the base class, run on the derived object. *)
Definition super {B} (m : M (ReplayBuffer A) B) : M PrioritizedReplayBuffer B :=
  λ self, match m (ring self) with (r, ring') => (r, set_ring ring' self) end.

(** [PrioritizedReplayBuffer.__init__] *)
Definition PrioritizedReplayBuffer_init (size : Z) (alpha beta eps : R)
  : result PrioritizedReplayBuffer :=
  match ReplayBuffer_init size with
  | Raise e => Raise e
  | Ok base =>
      if bool_decide (alpha <= 0) then Raise ValueError
      else if bool_decide (beta < 0) then Raise ValueError
      else Ok (mkPrioritizedReplayBuffer base alpha beta eps
                 (SegmentTree.new 0 size) (SegmentTree.new PosInf size) 1)
  end.

(** [PrioritizedReplayBuffer._default_priority]:
    [(self._max_priority + self._eps) ** self._alpha] *)
Definition _default_priority (self : PrioritizedReplayBuffer) : R :=
  np_power (_max_priority self + _eps self) (_alpha self).

(** [self._sum_tree[index] = priority] and [self._min_tree[index] = priority] *)
Definition sum_tree_setitem (ix : index) (p : priority) : M PrioritizedReplayBuffer unit :=
  λ self, match SegmentTree.setitem id ix p (_sum_tree self) with
          | Ok t => (Ok tt, set_sum_tree t self)
          | Raise e => (Raise e, self)
          end.
Definition min_tree_setitem (ix : index) (p : priority) : M PrioritizedReplayBuffer unit :=
  λ self, match SegmentTree.setitem Fin ix p (_min_tree self) with
          | Ok t => (Ok tt, set_min_tree t self)
          | Raise e => (Raise e, self)
          end.

(** The test of [_add_or_extend] on the priority and the returned index:
    [isinstance(priority, float) or len(priority) == 1 or
     len(priority) == len(index)]; [len] of the integer that [add]
    returns raises [TypeError]. *)
Definition check_priority_length (p : priority) (ix : index) : result bool :=
  match p with
  | PFloat _ => Ok true
  | PArr ps =>
      if bool_decide (length ps = 1%nat) then Ok true
      else match ix with
           | IInt _ => Raise TypeError
           | IArr idx => Ok (bool_decide (length ps = length idx))
           end
  end.

(** [PrioritizedReplayBuffer._add_or_extend].  [add] calls it with one
    payload and [do_add = True], [extend] with a batch and
    [do_add = False]: [inl x] stands for the first call, [inr xs] for the
    second. *)
Definition _add_or_extend (data : A + list A) (priority_ : option priority)
  : M PrioritizedReplayBuffer index :=
  let! self := get in
  let! p :=
    match priority_ with
    | Some p =>
        let! max_priority := lift (np_max p) in
        modify (set_max_priority (py_max (_max_priority self) max_priority)) ;;
        ret (stored_priority (_eps self) (_alpha self) p)
    | None => ret (PFloat (_default_priority self))
    end in
  let! ix :=
    match data with
    | inl x => let! i := super (ReplayBuffer_add x) in ret (IInt i)
    | inr xs => let! idx := super (ReplayBuffer_extend xs) in ret (IArr idx)
    end in
  let! ok := lift (check_priority_length p ix) in
  if negb ok then raise RuntimeError else
  sum_tree_setitem ix p ;;
  min_tree_setitem ix p ;;
  ret ix.

(** [PrioritizedReplayBuffer.add] and [PrioritizedReplayBuffer.extend] *)
Definition PrioritizedReplayBuffer_add (data : A) (priority_ : option priority)
  : M PrioritizedReplayBuffer index :=
  _add_or_extend (inl data) priority_.
Definition PrioritizedReplayBuffer_extend (data : list A) (priority_ : option priority)
  : M PrioritizedReplayBuffer index :=
  _add_or_extend (inr data) priority_.

(** [PrioritizedReplayBuffer.update_priority] *)
Definition update_priority (ix : index) (p : priority) : M PrioritizedReplayBuffer unit :=
  let! p :=
    match ix, p with
    | IInt _, PFloat _ => ret p
    | IInt _, PArr ps =>
        match ps with
        | [x] => ret (PFloat x)
        | _ => raise RuntimeError
        end
    | IArr _, PFloat _ => ret p
    | IArr idx, PArr ps =>
        if bool_decide (length ps = 1%nat) || bool_decide (length idx = length ps)
        then ret p else raise RuntimeError
    end in
  let! self := get in
  let! m := lift (np_max p) in
  modify (set_max_priority (py_max (_max_priority self) m)) ;;
  let p := stored_priority (_eps self) (_alpha self) p in
  sum_tree_setitem ix p ;;
  min_tree_setitem ix p.

(** [TensorDictPrioritizedReplayBuffer.update_priority]: the tensordict
    carries the priorities under [priority_key] and the slots under
    ["index"]. *)
Definition TensorDict_update_priority (idx : list Z) (ps : list R)
  : M PrioritizedReplayBuffer unit :=
  if any_negative ps then raise RuntimeError
  else update_priority (IArr idx) (PArr ps).

(** [np.clip(index, None, hi)] *)
Definition clip_max (hi : Z) (idx : list Z) : list Z := (λ i, Z.min i hi) <$> idx.

(** [self._sum_tree[index]] for an array of slots *)
Fixpoint sum_tree_gather (t : list R) (idx : list Z) : result (list R) :=
  match idx with
  | [] => Ok []
  | i :: idx' =>
      match SegmentTree.getitem t i with
      | Ok x => match sum_tree_gather t idx' with
                | Ok xs => Ok (x :: xs)
                | Raise e => Raise e
                end
      | Raise e => Raise e
      end
  end.

(** [PrioritizedReplayBuffer._sample].  [mass] stands for the draw
    [np.random.uniform(0.0, p_sum, size=batch_size)]; the batch is returned
    before collation. *)
Definition _sample (mass : list R) : M PrioritizedReplayBuffer (list A * list R * list Z) :=
  let! self := get in
  let capacity := _capacity (ring self) in
  let p_sum := SegmentTree.sum_query (_sum_tree self) 0 capacity in
  let p_min := SegmentTree.min_query (_min_tree self) 0 capacity in
  if bool_decide (p_sum <= 0) then raise RuntimeError else
  if le0_inf p_min then raise RuntimeError else
  let! idx := lift (SegmentTree.scan_lower_bound (_sum_tree self) mass) in
  let idx := clip_max (Py.len (_storage (ring self)) - 1) idx in
  let! data := lift (gather (_storage (ring self)) idx) in
  let! weight := lift (sum_tree_gather (_sum_tree self) idx) in
  let weight := (λ w, np_power (div_inf w p_min) (- _beta self)) <$> weight in
  ret (data, weight, idx).

End PrioritizedReplayBuffer.
Arguments PrioritizedReplayBuffer A : clear implicits.

Close Scope R_scope.

(** Payloads for the concrete scenarios. *)
Inductive payload : Type := pA | pB | pC | pD | pE | pF | pG | pH.

Definition fresh (c : Z) : ReplayBuffer payload := mkReplayBuffer [] c 0.






Definition pfresh : PrioritizedReplayBuffer payload :=
  mkPrioritizedReplayBuffer (fresh 4) 1 1 0
    (SegmentTree.new 0%R 4) (SegmentTree.new PosInf 4) 1.

(** ** Predicates on the state of a prioritized buffer *)

Section Predicates.
Context {A : Type}.
Implicit Types self : PrioritizedReplayBuffer A.

(** Both trees have one leaf per slot, as [__init__] builds them. *)
Definition trees_sized self : Prop :=
  length (_sum_tree self) = Z.to_nat (_capacity (ring self)) ∧
  length (_min_tree self) = Z.to_nat (_capacity (ring self)).

(** Slot [i] carries a stored priority: the same value in both trees. *)
Definition slot_prioritized self (i : Z) : Prop :=
  0 ≤ i < _capacity (ring self) ∧
  ∃ rho : R, _sum_tree self !! Z.to_nat i = Some rho ∧
             _min_tree self !! Z.to_nat i = Some (Fin rho).

(** A leaf of the sum tree and the same leaf of the min tree agree: both
    hold the stored priority, or both hold their identity. *)
Definition leaf_agrees (x : R) (y : float_inf) : Prop :=
  y = Fin x ∨ (y = PosInf ∧ x = 0%R).

(** The invariant of a prioritized buffer: the ring is well formed, the
    trees have one leaf per slot and agree leaf by leaf, and every
    occupied slot has a stored priority. *)
Definition prioritized_wf self : Prop :=
  ring_wf (ring self) ∧
  trees_sized self ∧
  Forall2 leaf_agrees (_sum_tree self) (_min_tree self) ∧
  ∀ i : nat, (i < length (_storage (ring self)))%nat →
             ∃ x : R, _min_tree self !! i = Some (Fin x).


End Predicates.

(** ** Reading the ring, and the history of its writes *)

Section RingReads.
Context {A : Type}.






End RingReads.

(** ** [stack_tensors], the default collation *)

Section Collation.
Context {T : Type}.

(** Python's [zip] of the unpacked rows: the tuples of the elements that
    the rows have at the same position, up to the length of the shortest
    row; nothing for no row at all. *)
Fixpoint zip_star (rows : list (list T)) : list (list T) :=
  match rows with
  | [] => []
  | r :: rest =>
      match rest with
      | [] => (λ x, [x]) <$> r
      | _ => zip_with cons r (zip_star rest)
      end
  end.

(** [tuple(f(x) for x in xs)]: the results in order; the first call that
    raises ends the evaluation. *)
Fixpoint tuple_of {X Y} (f : X → result Y) (xs : list X) : result (list Y) :=
  match xs with
  | [] => Ok []
  | x :: xs =>
      match f x with
      | Ok y => match tuple_of f xs with Ok ys => Ok (y :: ys) | Raise e => Raise e end
      | Raise e => Raise e
      end
  end.

(** [stack_tensors]; [torch_stack] stands for PyTorch's
    [torch.stack(tensors, 0)], in which the development is parametric. *)
Definition stack_tensors (torch_stack : list T → result T) (rows : list (list T))
  : result (list T) :=
  tuple_of torch_stack (zip_star rows).

(** Column [j] of a list of rows: the elements at position [j] of the rows
    that have one. *)
Definition column (j : nat) (rows : list (list T)) : list T :=
  omap (λ r, r !! j) rows.

End Collation.

(** ** Reading a prioritized buffer, and sequences of its calls *)

Open Scope R_scope.

Section PrioritizedCalls.
Context {A : Type}.




(** The calls that write to a prioritized buffer, and a sequence of them
    run in order; a call that raises ends the sequence. *)
Inductive pcall : Type :=
  | PAdd (x : A) (prio : option priority)
  | PExtend (xs : list A) (prio : option priority)
  | PUpdate (ix : index) (p : priority).

Definition run_pcall (c : pcall) : M (PrioritizedReplayBuffer A) unit :=
  match c with
  | PAdd x prio => PrioritizedReplayBuffer_add x prio ;; ret tt
  | PExtend xs prio => PrioritizedReplayBuffer_extend xs prio ;; ret tt
  | PUpdate ix p => update_priority ix p
  end.

Fixpoint run_pcalls (calls : list pcall) : M (PrioritizedReplayBuffer A) unit :=
  match calls with
  | [] => ret tt
  | c :: calls' => run_pcall c ;; run_pcalls calls'
  end.

(** An [extend] batch of at most [c] payloads. *)
Definition pbatch_within (c : Z) (cl : pcall) : Prop :=
  match cl with PExtend xs _ => (Py.len xs ≤ c)%Z | _ => True end.

End PrioritizedCalls.
Arguments pcall A : clear implicits.

(** The priority that [update_priority] goes on with after its tests on
    the arguments. *)
Definition update_priority_args (ix : index) (p : priority) : result priority :=
  match ix, p with
  | IInt _, PFloat _ => Ok p
  | IInt _, PArr [x] => Ok (PFloat x)
  | IInt _, PArr _ => Raise RuntimeError
  | IArr _, PFloat _ => Ok p
  | IArr idx, PArr ps =>
      if bool_decide (length ps = 1%nat) || bool_decide (length idx = length ps)
      then Ok p else Raise RuntimeError
  end.

Close Scope R_scope.

(** * Properties *)

(** ** The ring *)

Lemma init_fresh (c : Z) : ReplayBuffer_init c = Ok (fresh c).
Proof. reflexivity. Qed.

Section RingRuns.
Context {A : Type}.
Implicit Types self : ReplayBuffer A.
Implicit Types vs l : list A.

Lemma add_append self (x : A) :
  Py.len (_storage self) ≤ _cursor self →
  _capacity self ≠ 0 →
  ReplayBuffer_add x self
  = (Ok (_cursor self),
     mkReplayBuffer (_storage self ++ [x]) (_capacity self)
       ((_cursor self + 1) mod _capacity self)).
Proof.
  intros Hc Hcap.
  unfold ReplayBuffer_add, bind, get, lift, modify, ret, storage_iadd, Py.mod_.
  rewrite bool_decide_eq_true_2 by lia. simpl.
  rewrite bool_decide_eq_false_2 by done. reflexivity.
Qed.

Lemma add_overwrite self (x : A) :
  0 ≤ _cursor self < Py.len (_storage self) →
  _capacity self ≠ 0 →
  ReplayBuffer_add x self
  = (Ok (_cursor self),
     mkReplayBuffer (<[Z.to_nat (_cursor self) := x]> (_storage self)) (_capacity self)
       ((_cursor self + 1) mod _capacity self)).
Proof.
  intros Hc Hcap. unfold Py.len in Hc.
  unfold ReplayBuffer_add, bind, get, lift, modify, ret, storage_setitem,
    Py.setitem, Py.norm_index, Py.mod_.
  rewrite bool_decide_eq_false_2 by (unfold Py.len; lia).
  rewrite bool_decide_eq_true_2 by lia. simpl.
  rewrite bool_decide_eq_false_2 by done. reflexivity.
Qed.

Lemma splice_nil p l : splice p [] l = l.
Proof. unfold splice. simpl. rewrite Nat.add_0_r. apply take_drop. Qed.

Lemma splice_length p vs l :
  (p + length vs ≤ length l)%nat → length (splice p vs l) = length l.
Proof.
  intros H. unfold splice. rewrite !length_app, length_take, length_drop. lia.
Qed.

Lemma splice_cons p x vs l :
  (p + S (length vs) ≤ length l)%nat →
  splice (S p) vs (<[p := x]> l) = splice p (x :: vs) l.
Proof.
  intros H. unfold splice.
  rewrite insert_take_drop by lia.
  rewrite (take_app_ge (take p l)); rewrite length_take_le by lia; [|lia].
  replace (S p - p)%nat with 1%nat by lia. simpl. rewrite take_0.
  rewrite <- app_assoc. simpl. f_equal. f_equal. f_equal.
  rewrite drop_app_ge; rewrite length_take_le by lia; [|lia].
  replace (S (p + length vs) - p)%nat with (S (length vs)) by lia. simpl.
  rewrite drop_drop. f_equal. lia.
Qed.

(** The loops of [extend]: writing [vs] to consecutive slots that exist. *)
Lemma for_enumerate_store (body : Z → A → M (ReplayBuffer A) unit) (base : Z) vs :
  (∀ i v, body i v = storage_setitem (base + i) v) →
  ∀ (i0 : Z) self,
  0 ≤ base + i0 →
  base + i0 + Py.len vs ≤ Py.len (_storage self) →
  for_enumerate i0 vs body self
  = (Ok tt, set_storage (splice (Z.to_nat (base + i0)) vs (_storage self)) self).
Proof.
  intros Hbody. induction vs as [|v vs IH]; intros i0 self H0 Hlen.
  { simpl. unfold ret. rewrite splice_nil. by destruct self. }
  unfold Py.len in *. simpl length in *.
  simpl. unfold bind. rewrite Hbody.
  unfold storage_setitem, Py.setitem, Py.norm_index.
  rewrite bool_decide_eq_true_2 by lia.
  rewrite IH; simpl; rewrite ?length_insert; [|lia|lia].
  f_equal. unfold set_storage. simpl. f_equal.
  replace (Z.to_nat (base + (i0 + 1))) with (S (Z.to_nat (base + i0))) by lia.
  apply splice_cons. lia.
Qed.

Lemma arange_cons (a b : Z) : a < b → Py.arange a b = a :: Py.arange (a + 1) b.
Proof.
  intros H. unfold Py.arange. rewrite seqZ_cons by lia.
  f_equal. f_equal; lia.
Qed.

Lemma arange_nil (a b : Z) : b ≤ a → Py.arange a b = [].
Proof. intros H. unfold Py.arange. apply seqZ_nil. lia. Qed.

Lemma arange_length (a b : Z) : length (Py.arange a b) = Z.to_nat (b - a).
Proof. apply length_seqZ. Qed.

(** [k] calls of [add] that append: the cursor is at the end of a storage
    with room for all of them. *)
Lemma add_each_append_run vs : ∀ self,
  vs ≠ [] →
  0 < _capacity self →
  _cursor self = Py.len (_storage self) →
  _cursor self + Py.len vs ≤ _capacity self →
  add_each vs self
  = (Ok (Py.arange (_cursor self) (_cursor self + Py.len vs)),
     mkReplayBuffer (_storage self ++ vs) (_capacity self)
       ((_cursor self + Py.len vs) mod _capacity self)).
Proof.
  induction vs as [|x vs IH]; intros self Hne Hcap Hcur Hroom; [done|].
  unfold Py.len in *. simpl length in *.
  simpl. unfold bind. rewrite add_append by (unfold Py.len; lia).
  destruct vs as [|y vs].
  { simpl. unfold ret. rewrite arange_cons, arange_nil by lia. reflexivity. }
  assert (Hmod : (_cursor self + 1) mod _capacity self = _cursor self + 1).
  { apply Z.mod_small. cbn [length] in Hroom. lia. }
  rewrite IH; cbn [_cursor _storage _capacity]; rewrite ?Hmod; unfold Py.len;
    rewrite ?length_app; cbn [length] in *; [|done|done|lia|lia].
  unfold ret.
  replace (_cursor self + 1 + Z.of_nat (S (length vs)))
    with (_cursor self + Z.of_nat (S (S (length vs)))) by lia.
  rewrite (arange_cons (_cursor self)) by lia.
  by rewrite <- app_assoc.
Qed.

(** [k] calls of [add] that overwrite slots [cursor .. cursor + k - 1]. *)
Lemma add_each_overwrite_run vs : ∀ self,
  vs ≠ [] →
  0 ≤ _cursor self →
  _cursor self + Py.len vs ≤ _capacity self →
  _cursor self + Py.len vs ≤ Py.len (_storage self) →
  add_each vs self
  = (Ok (Py.arange (_cursor self) (_cursor self + Py.len vs)),
     mkReplayBuffer (splice (Z.to_nat (_cursor self)) vs (_storage self))
       (_capacity self) ((_cursor self + Py.len vs) mod _capacity self)).
Proof.
  induction vs as [|x vs IH]; intros self Hne Hcur Hcap Hlen; [done|].
  unfold Py.len in *. simpl length in *.
  simpl. unfold bind. rewrite add_overwrite by (unfold Py.len; lia).
  destruct vs as [|y vs].
  { simpl. unfold ret. rewrite arange_cons, arange_nil by lia.
    do 2 f_equal. f_equal.
    unfold splice. simpl. rewrite insert_take_drop by lia.
    do 3 f_equal. lia. }
  assert (Hmod : (_cursor self + 1) mod _capacity self = _cursor self + 1).
  { apply Z.mod_small. cbn [length] in Hcap. lia. }
  rewrite IH; cbn [_cursor _storage _capacity]; rewrite ?Hmod; unfold Py.len;
    rewrite ?length_insert; cbn [length] in *; [|done|lia|lia|lia].
  unfold ret.
  replace (_cursor self + 1 + Z.of_nat (S (length vs)))
    with (_cursor self + Z.of_nat (S (S (length vs)))) by lia.
  rewrite (arange_cons (_cursor self)) by lia.
  replace (Z.to_nat (_cursor self + 1)) with (S (Z.to_nat (_cursor self))) by lia.
  rewrite (splice_cons _ x (y :: vs)) by (cbn [length]; lia).
  reflexivity.
Qed.

Lemma add_each_app vs1 vs2 self :
  add_each (vs1 ++ vs2) self
  = match add_each vs1 self with
    | (Ok i1, self1) =>
        match add_each vs2 self1 with
        | (Ok i2, self2) => (Ok (i1 ++ i2), self2)
        | (Raise e, self2) => (Raise e, self2)
        end
    | (Raise e, self1) => (Raise e, self1)
    end.
Proof.
  revert self. induction vs1 as [|x vs1 IH]; intros self; simpl.
  { unfold ret. by destruct (add_each vs2 self) as [[?|?] ?]. }
  unfold bind. destruct (ReplayBuffer_add x self) as [[i|e] self1]; [|done].
  rewrite IH. destruct (add_each vs1 self1) as [[i1|e] self2]; [|reflexivity].
  unfold ret. destruct (add_each vs2 self2) as [[i2|e] self3]; reflexivity.
Qed.

(** The index array of the wrapping branches of [extend]. *)
Lemma assign_to_empty (b d : Z) (src : list Z) :
  0 ≤ d ≤ b →
  length src = Z.to_nat d →
  Py.assign_to (Py.empty b) d src = Ok (src ++ replicate (Z.to_nat (b - d)) 0).
Proof.
  intros Hd H1. unfold Py.assign_to, Py.empty, Py.slice_bound, Py.broadcast.
  rewrite length_replicate.
  rewrite (bool_decide_eq_false_2 (d < 0)) by lia.
  replace (Z.to_nat (Z.min d (Z.of_nat (Z.to_nat b)))) with (Z.to_nat d) by lia.
  rewrite bool_decide_eq_true_2 by done.
  rewrite drop_replicate. do 3 f_equal. lia.
Qed.

Lemma assign_from_app (d : Z) (src1 rest src2 : list Z) :
  0 ≤ d →
  length src1 = Z.to_nat d →
  length src2 = length rest →
  Py.assign_from (src1 ++ rest) d src2 = Ok (src1 ++ src2).
Proof.
  intros Hd H1 H2. unfold Py.assign_from, Py.slice_bound, Py.broadcast.
  rewrite (bool_decide_eq_false_2 (d < 0)) by lia.
  rewrite length_app.
  replace (Z.to_nat (Z.min d (Z.of_nat (length src1 + length rest))))
    with (length src1) by lia.
  rewrite bool_decide_eq_true_2 by lia.
  by rewrite take_app_length.
Qed.

Lemma slice_to_take vs (d : Z) :
  0 ≤ d ≤ Py.len vs → Py.slice_to vs d = take (Z.to_nat d) vs.
Proof.
  intros H. unfold Py.slice_to, Py.slice_bound, Py.len in *.
  rewrite bool_decide_eq_false_2 by lia. f_equal. lia.
Qed.

Lemma slice_from_drop vs (d : Z) :
  0 ≤ d ≤ Py.len vs → Py.slice_from vs d = drop (Z.to_nat d) vs.
Proof.
  intros H. unfold Py.slice_from, Py.slice_bound, Py.len in *.
  rewrite bool_decide_eq_false_2 by lia. f_equal. lia.
Qed.

Lemma nonempty_length vs : vs ≠ [] ↔ 0 < Py.len vs.
Proof. unfold Py.len. destruct vs; simpl; split; intros; (done || lia). Qed.

(** [extend] agrees with one [add] per payload, in the returned slots and
    in the ring it leaves, whenever the part of the batch that wraps past
    the end is shorter than the capacity (in particular for every batch of
    at most [capacity] payloads). *)
Theorem extend_as_add_each self (data : list A) :
  ring_wf self →
  data ≠ [] →
  _cursor self + Py.len data < 2 * _capacity self →
  ReplayBuffer_extend data self = add_each data self.
Proof.
  intros (Hcap & Hcur & Hlen & Hfill) Hne Hwrap.
  pose proof (proj1 (nonempty_length data) Hne) as Hb.
  unfold ReplayBuffer_extend.
  rewrite bool_decide_eq_false_2 by lia.
  unfold bind at 1. unfold get.
  case_bool_decide as H1.
  { (* fits without wrap *)
    rewrite add_each_append_run by (done || lia).
    unfold bind, storage_iadd, modify, lift, Py.mod_, ret.
    rewrite bool_decide_eq_false_2 by lia.
    rewrite Hfill by lia. reflexivity. }
  case_bool_decide as H2.
  { (* fills the remaining capacity, then overwrites from slot 0 *)
    set (d := _capacity self - Py.len (_storage self)) in *.
    assert (Hd : 0 < d < Py.len data) by lia.
    assert (Htake : Py.len (take (Z.to_nat d) data) = d).
    { unfold Py.len in *. rewrite length_take. lia. }
    assert (Hdrop : Py.len (drop (Z.to_nat d) data) = Py.len data - d).
    { unfold Py.len in *. rewrite length_drop. lia. }
    rewrite assign_to_empty by (rewrite ?arange_length; lia).
    unfold bind at 1. unfold lift at 1.
    rewrite assign_from_app
      by (rewrite ?arange_length, ?length_replicate; (lia || f_equal; lia)).
    unfold bind at 1. unfold lift at 1.
    rewrite slice_to_take, slice_from_drop by lia.
    unfold bind at 1. unfold storage_iadd at 1. unfold modify at 1.
    unfold bind at 1.
    rewrite (for_enumerate_store _ 0); [|done|done|].
    2:{ cbn [set_storage _storage]. unfold Py.len in *. rewrite length_app. lia. }
    unfold bind, modify, ret. cbn [set_storage set_cursor _storage _capacity _cursor].
    replace (add_each data self)
      with (add_each (take (Z.to_nat d) data ++ drop (Z.to_nat d) data) self)
      by (by rewrite take_drop).
    rewrite add_each_app.
    assert (Hc : _cursor self = Py.len (_storage self)) by (apply Hfill; lia).
    assert (Hz : (_cursor self + d) mod _capacity self = 0).
    { replace (_cursor self + d) with (_capacity self) by lia.
      apply Z.mod_same. lia. }
    rewrite add_each_append_run; rewrite ?Htake; [| |done|done|lia].
    2:{ apply nonempty_length. lia. }
    rewrite Hz.
    rewrite add_each_overwrite_run; cbn [_storage _capacity _cursor];
      rewrite ?Hdrop.
    2:{ apply nonempty_length. lia. }
    2:{ lia. }
    2:{ lia. }
    2:{ unfold Py.len in *. rewrite length_app. lia. }
    rewrite Z.mod_small by lia.
    rewrite Hc. replace (Py.len (_storage self) + d) with (_capacity self) by lia.
    reflexivity. }
  assert (Hfull : Py.len (_storage self) = _capacity self) by lia.
  case_bool_decide as H3.
  { (* overwrites without wrap *)
    unfold bind at 1.
    rewrite (for_enumerate_store _ (_cursor self)); [|done|lia|lia].
    unfold bind, lift, modify, ret, Py.mod_.
    rewrite bool_decide_eq_false_2 by lia.
    rewrite add_each_overwrite_run by (done || lia).
    rewrite !Z.add_0_r. reflexivity. }
  (* overwrites up to the end, then from slot 0 *)
  set (d := _capacity self - _cursor self) in *.
  assert (Hd : 0 < d < Py.len data) by lia.
  assert (Htake : Py.len (take (Z.to_nat d) data) = d).
  { unfold Py.len in *. rewrite length_take. lia. }
  assert (Hdrop : Py.len (drop (Z.to_nat d) data) = Py.len data - d).
  { unfold Py.len in *. rewrite length_drop. lia. }
  rewrite assign_to_empty by (rewrite ?arange_length; lia).
  unfold bind at 1. unfold lift at 1.
  rewrite assign_from_app
    by (rewrite ?arange_length, ?length_replicate; (lia || f_equal; lia)).
  unfold bind at 1. unfold lift at 1.
  rewrite slice_to_take, slice_from_drop by lia.
  unfold bind at 1.
  rewrite (for_enumerate_store _ (_cursor self)); [|done|lia|lia].
  unfold bind at 1.
  rewrite (for_enumerate_store _ 0); [|done|done|].
  2:{ cbn [set_storage _storage]. unfold Py.len in *.
      rewrite splice_length; lia. }
  unfold bind, modify, ret. cbn [set_storage set_cursor _storage _capacity _cursor].
  replace (add_each data self)
    with (add_each (take (Z.to_nat d) data ++ drop (Z.to_nat d) data) self)
    by (by rewrite take_drop).
  rewrite add_each_app.
  assert (Hz : (_cursor self + d) mod _capacity self = 0).
  { replace (_cursor self + d) with (_capacity self) by lia.
    apply Z.mod_same. lia. }
  rewrite add_each_overwrite_run; rewrite ?Htake; [| |lia|lia|lia].
  2:{ apply nonempty_length. lia. }
  rewrite Hz.
  rewrite add_each_overwrite_run; cbn [_storage _capacity _cursor];
    rewrite ?Hdrop.
  2:{ apply nonempty_length. lia. }
  2:{ lia. }
  2:{ lia. }
  2:{ unfold Py.len in *. rewrite splice_length; lia. }
  rewrite Z.mod_small by lia.
  replace (_cursor self + d) with (_capacity self) by lia.
  rewrite !Z.add_0_r. reflexivity.
Qed.

Lemma ring_inv_wf (c T : Z) self :
  0 < c → 0 ≤ T → ring_inv c T self → ring_wf self.
Proof.
  intros Hc HT (Hcap & Hlen & Hcur). unfold ring_wf.
  rewrite Hcap, Hlen, Hcur.
  pose proof (Z.mod_pos_bound T c Hc) as Hm.
  repeat split; try lia.
  intros Hlt. rewrite Z.mod_small; lia.
Qed.

Lemma add_ring_inv (c T : Z) self (x : A) :
  0 < c → 0 ≤ T → ring_inv c T self →
  ∃ self', ReplayBuffer_add x self = (Ok (T mod c), self') ∧
           ring_inv c (T + 1) self'.
Proof.
  intros Hc HT (Hcap & Hlen & Hcur).
  pose proof (Z.mod_pos_bound T c Hc) as Hm.
  destruct (decide (T < c)) as [Hlt|Hge].
  - pose proof (Z.mod_small T c ltac:(lia)) as Hs.
    rewrite add_append by lia. rewrite Hcur, Hcap. eexists. split; [done|].
    unfold ring_inv, Py.len in *. cbn [_storage _capacity _cursor].
    rewrite length_app. cbn [length].
    rewrite Z.add_mod_idemp_l by lia. repeat split; lia.
  - rewrite add_overwrite by lia. rewrite Hcur, Hcap. eexists. split; [done|].
    unfold ring_inv, Py.len in *. cbn [_storage _capacity _cursor].
    rewrite length_insert.
    rewrite Z.add_mod_idemp_l by lia. repeat split; lia.
Qed.

Lemma add_each_ring_inv (vs : list A) : ∀ (c T : Z) self,
  0 < c → 0 ≤ T → ring_inv c T self →
  ∃ idx self', add_each vs self = (Ok idx, self') ∧
               ring_inv c (T + Py.len vs) self'.
Proof.
  induction vs as [|x vs IH]; intros c T self Hc HT Hinv.
  { exists [], self. split; [done|]. unfold Py.len. simpl. by rewrite Z.add_0_r. }
  destruct (add_ring_inv c T self x Hc HT Hinv) as (self1 & Hadd & Hinv1).
  destruct (IH c (T + 1) self1) as (idx & self' & Hrun & Hinv'); [done|lia|done|].
  exists (T mod c :: idx), self'. simpl. unfold bind. rewrite Hadd, Hrun.
  split; [done|]. unfold Py.len in *. cbn [length].
  by replace (T + Z.of_nat (S (length vs))) with (T + 1 + Z.of_nat (length vs)) by lia.
Qed.

Lemma run_calls_ring_inv (calls : list (call A)) : ∀ (c T : Z) self,
  0 < c → 0 ≤ T → ring_inv c T self →
  Forall (batch_within c) calls →
  ∃ self', run_calls calls self = (Ok tt, self') ∧
           ring_inv c (T + written calls) self'.
Proof.
  induction calls as [|cl calls IH]; intros c T self Hc HT Hinv Hb.
  { exists self. split; [done|]. simpl. by rewrite Z.add_0_r. }
  inversion Hb as [|? ? Hcl Hb']; subst.
  assert (Hstep : ∃ self1, run_call cl self = (Ok tt, self1) ∧
                           ring_inv c (T + payloads cl) self1).
  { destruct cl as [x|xs]; simpl in *.
    - destruct (add_ring_inv c T self x Hc HT Hinv) as (self1 & Hadd & Hinv1).
      exists self1. unfold bind. by rewrite Hadd.
    - pose proof (ring_inv_wf c T self Hc HT Hinv) as Hwf.
      destruct (add_each_ring_inv xs c T self Hc HT Hinv) as (idx & self1 & Hrun & Hinv1).
      exists self1. unfold bind. rewrite extend_as_add_each, Hrun; [done|done| |].
      + apply nonempty_length. lia.
      + destruct Hinv as (-> & _ & ->). pose proof (Z.mod_pos_bound T c Hc). lia. }
  destruct Hstep as (self1 & Hrun1 & Hinv1).
  assert (0 ≤ payloads cl) by (destruct cl; unfold payloads, Py.len; lia).
  destruct (IH c (T + payloads cl) self1) as (self' & Hrun & Hinv'); [done|lia|done|done|].
  exists self'. simpl. unfold bind. rewrite Hrun1, Hrun. split; [done|].
  by rewrite Z.add_assoc.
Qed.

End RingRuns.

(** The ring occupancy invariant for batches that fit the capacity: from
    an empty buffer of capacity [c > 0], every sequence of [add] calls and
    of [extend] calls with between 1 and [c] payloads succeeds, and after
    [T] payloads in all the length is [min T c] and the cursor is
    [T mod c], inside [[0, c)]. *)
Theorem ring_occupancy_within_capacity {A} (c : Z) (calls : list (call A)) :
  0 < c →
  Forall (batch_within c) calls →
  ∃ self',
    run_calls calls (mkReplayBuffer [] c 0) = (Ok tt, self') ∧
    ReplayBuffer_len self' = Z.min (written calls) c ∧
    _cursor self' = written calls mod c ∧
    0 ≤ _cursor self' < c.
Proof.
  intros Hc Hb.
  destruct (run_calls_ring_inv calls c 0 (mkReplayBuffer [] c 0)) as (self' & Hrun & Hinv);
    [done|done| |done|].
  { unfold ring_inv, Py.len. simpl. rewrite Z.mod_0_l by lia. repeat split; lia. }
  exists self'. split; [done|]. destruct Hinv as (_ & Hlen & Hcur).
  rewrite Z.add_0_l in *. repeat split; try done; rewrite Hcur; apply Z.mod_pos_bound; lia.
Qed.

(** Scenario 1 of the specification: six [add] calls into capacity 4. *)
Example add_six_into_capacity_four :
  add_each [pA; pB; pC; pD; pE; pF] (fresh 4)
  = (Ok [0; 1; 2; 3; 0; 1], mkReplayBuffer [pE; pF; pC; pD] 4 2).
Proof. vm_compute. reflexivity. Qed.

(** A batch whose wrapped part is longer than the capacity: [extend] of 9
    payloads into an empty buffer of capacity 4 raises [IndexError] in its
    second loop, after it has written 8 of them. *)
Example extend_nine_into_capacity_four :
  ReplayBuffer_extend [pA; pB; pC; pD; pE; pF; pG; pH; pA] (fresh 4)
  = (Raise IndexError, mkReplayBuffer [pE; pF; pG; pH] 4 0).
Proof. vm_compute. reflexivity. Qed.

(** C5: in an empty buffer of capacity 4, [extend([A,B,C,D,E])] returns
    the slots [0,1,2,3,0] and leaves the storage [E,B,C,D], the cursor 1
    and the length 4. *)
Theorem extend_five_into_capacity_four :
  ReplayBuffer_init 4 = Ok (fresh 4) ∧
  ∃ self',
    ReplayBuffer_extend [pA; pB; pC; pD; pE] (fresh 4) = (Ok [0; 1; 2; 3; 0], self') ∧
    _storage self' = [pE; pB; pC; pD] ∧
    _cursor self' = 1 ∧
    ReplayBuffer_len self' = 4.
Proof.
  split; [reflexivity|].
  exists (mkReplayBuffer [pE; pB; pC; pD] 4 1).
  repeat split; vm_compute; reflexivity.
Qed.

(** C2, at the failing input: in an empty buffer of capacity 4, [extend]
    of 8 payloads succeeds and leaves the cursor at 4, which is neither
    [8 mod 4] nor inside [[0, 4)]; the next [add] then appends a fifth
    element, so the length is 5 and not [min 9 4]. *)
Theorem extend_full_wrap_leaves_cursor_at_capacity :
  let batch := [pA; pB; pC; pD; pE; pF; pG; pH] in
  let self1 := mkReplayBuffer [pE; pF; pG; pH] 4 4 in
  let self2 := mkReplayBuffer [pE; pF; pG; pH; pA] 4 1 in
  ReplayBuffer_extend batch (fresh 4) = (Ok [0; 1; 2; 3; 0; 1; 2; 3], self1) ∧
  _cursor self1 ≠ 8 mod 4 ∧
  ¬ (0 ≤ _cursor self1 < 4) ∧
  ReplayBuffer_add pA self1 = (Ok 4, self2) ∧
  ReplayBuffer_len self2 ≠ Z.min 9 4.
Proof.
  repeat split; try (vm_compute; reflexivity); vm_compute; try congruence.
  intros [_ H]. discriminate H.
Qed.

(** C3, at the failing input: in an empty buffer of capacity 4, [extend]
    of 8 payloads succeeds, yet the ring it leaves is not the one that 8
    calls of [add] leave: the cursor is 4 after [extend] and 0 after the
    [add] calls. *)
Theorem extend_over_capacity_differs_from_adds :
  let batch := [pA; pB; pC; pD; pE; pF; pG; pH] in
  ReplayBuffer_extend batch (fresh 4)
    = (Ok [0; 1; 2; 3; 0; 1; 2; 3], mkReplayBuffer [pE; pF; pG; pH] 4 4) ∧
  add_each batch (fresh 4)
    = (Ok [0; 1; 2; 3; 0; 1; 2; 3], mkReplayBuffer [pE; pF; pG; pH] 4 0) ∧
  snd (ReplayBuffer_extend batch (fresh 4)) ≠ snd (add_each batch (fresh 4)).
Proof.
  repeat split; try (vm_compute; reflexivity).
  vm_compute. intros H. discriminate H.
Qed.


Lemma norm_index_Some (n : nat) (i : Z) (k : nat) :
  Py.norm_index n i = Some k → (k < n)%nat.
Proof.
  unfold Py.norm_index. repeat case_bool_decide; intros [= <-]; lia.
Qed.




(** ** Floats *)

Open Scope R_scope.

Arguments np_power : simpl never.
Arguments py_max : simpl never.
Arguments Rmax : simpl never.

Lemma np_power_pos (x y : R) : 0 < x → np_power x y = Rpower x y.
Proof. intros H. unfold np_power. by rewrite bool_decide_eq_true_2. Qed.

Lemma np_power_integral (x : R) (n : Z) :
  x <= 0 → np_power x (IZR n) = powerRZ x n.
Proof.
  intros H. unfold np_power.
  assert (Hn : Int_part (IZR n) = n) by (symmetry; apply Int_part_spec; lra).
  rewrite bool_decide_eq_false_2 by lra.
  rewrite Hn. by rewrite bool_decide_eq_true_2.
Qed.

Lemma py_max_lt (a b : R) : a < b → py_max a b = b.
Proof. intros H. unfold py_max. by rewrite bool_decide_eq_true_2. Qed.

Lemma py_max_ge (a b : R) : b <= a → py_max a b = a.
Proof. intros H. unfold py_max. rewrite bool_decide_eq_false_2; [done|lra]. Qed.

Lemma py_max_idem (a b : R) : py_max (py_max a b) b = py_max a b.
Proof.
  destruct (Rlt_dec a b) as [H|H].
  - rewrite (py_max_lt a b) by done. apply py_max_ge. lra.
  - rewrite (py_max_ge a b) by lra. apply py_max_ge. lra.
Qed.

Lemma exp_le_1 (x : R) : x <= 0 → exp x <= 1.
Proof.
  intros [H| ->].
  - left. rewrite <- exp_0. by apply exp_increasing.
  - rewrite exp_0. lra.
Qed.

Lemma ln_ge_0 (x : R) : 1 <= x → 0 <= ln x.
Proof.
  intros [H| <-].
  - left. rewrite <- ln_1. apply ln_increasing; lra.
  - rewrite ln_1. lra.
Qed.

(** The importance-sampling weight of a stored priority [rho] that is at
    least the positive minimum [m]. *)
Lemma weight_bounds (rho m beta : R) :
  0 < m → m <= rho → 0 <= beta →
  let w := np_power (rho / m) (- beta) in
  0 < w <= 1 ∧ (rho = m → w = 1) ∧ (0 < beta → w = 1 → rho = m).
Proof.
  intros Hm Hrho Hbeta w.
  assert (Hq : 1 <= rho / m).
  { apply (Rmult_le_reg_r m); [done|]. field_simplify; lra. }
  assert (Hw : w = exp (- beta * ln (rho / m))).
  { unfold w. rewrite np_power_pos by lra. reflexivity. }
  pose proof (ln_ge_0 _ Hq) as Hln.
  repeat split.
  - rewrite Hw. apply exp_pos.
  - rewrite Hw. apply exp_le_1. nra.
  - intros ->. rewrite Hw. replace (m / m) with 1 by (field; lra).
    rewrite ln_1, Rmult_0_r. apply exp_0.
  - intros Hb H1. rewrite Hw, <- exp_0 in H1. apply exp_inv in H1.
    assert (Hz : ln (rho / m) = 0) by nra.
    rewrite <- ln_1 in Hz. apply ln_inv in Hz; [|lra|lra].
    apply (Rmult_eq_compat_r m) in Hz. field_simplify in Hz; lra.
Qed.

(** ** Construction *)

Lemma init_pfresh : PrioritizedReplayBuffer_init 4 1 1 0 = Ok pfresh.
Proof.
  unfold PrioritizedReplayBuffer_init. simpl.
  rewrite !bool_decide_eq_false_2 by lra. reflexivity.
Qed.

(** C6, counterexample: [ReplayBuffer(0)] and [ReplayBuffer(-3)] are
    constructed; no exception is raised. *)
Lemma init_accepts_nonpositive_capacity :
  (0 ≤ 0)%Z ∧ ReplayBuffer_init 0 = Ok (fresh 0) ∧
  (-3 ≤ 0)%Z ∧ ReplayBuffer_init (-3) = Ok (fresh (-3)).
Proof. repeat split; lia. Qed.

(** C6, amended: the constructors do not check the capacity.
    [ReplayBuffer.__init__] succeeds for every capacity and stores it;
    [PrioritizedReplayBuffer.__init__] raises [ValueError] (kind
    InvalidArgument) when [alpha <= 0] or [beta < 0], and otherwise
    succeeds for every capacity, with [max_priority] 1. *)
Theorem init_validates_alpha_beta_only {A} (size : Z) (alpha beta eps : R) :
  @ReplayBuffer_init A size = Ok (mkReplayBuffer [] size 0) ∧
  kind_of ValueError = InvalidArgument ∧
  (alpha <= 0 ∨ beta < 0 →
     @PrioritizedReplayBuffer_init A size alpha beta eps = Raise ValueError) ∧
  (0 < alpha → 0 <= beta →
     ∃ self, @PrioritizedReplayBuffer_init A size alpha beta eps = Ok self ∧
             ring self = mkReplayBuffer [] size 0 ∧
             _max_priority self = 1).
Proof.
  split; [reflexivity|]. split; [reflexivity|]. split.
  - intros H. unfold PrioritizedReplayBuffer_init. simpl.
    case_bool_decide; [done|]. case_bool_decide; [done|]. lra.
  - intros Ha Hb. eexists. unfold PrioritizedReplayBuffer_init. simpl.
    rewrite !bool_decide_eq_false_2 by lra. repeat split.
Qed.

Lemma init_validates_alpha_beta_only_witness :
  @PrioritizedReplayBuffer_init payload 0 0 1 0 = Raise ValueError ∧
  ∃ self, @PrioritizedReplayBuffer_init payload 0 1 1 0 = Ok self ∧
          ring self = mkReplayBuffer [] 0%Z 0%Z ∧
          _max_priority self = 1.
Proof.
  destruct (@init_validates_alpha_beta_only payload 0 0 1 0) as (_ & _ & H1 & _).
  destruct (@init_validates_alpha_beta_only payload 0 1 1 0) as (_ & _ & _ & H2).
  split.
  - apply H1. left. lra.
  - apply H2; lra.
Defined.

(** ** [add] and [extend] with a priority *)

(** C1, at the failing input: in a fresh prioritized buffer of capacity 4,
    [extend([A,B,C], priority=[1.0, 2.0])] raises [RuntimeError], and the
    buffer it leaves holds the three payloads, the cursor 3 and
    [max_priority] 2; only the trees are as before.  [add(A,
    priority=[1.0, 2.0])] raises after it has stored [A], and [extend([],
    priority=[5.0])] raises and leaves [max_priority] at 5. *)
Theorem extend_bad_priority_length_is_not_atomic :
  PrioritizedReplayBuffer_init 4 1 1 0 = Ok pfresh ∧
  PrioritizedReplayBuffer_extend [pA; pB; pC] (Some (PArr [1; 2])) pfresh
  = (Raise RuntimeError,
     mkPrioritizedReplayBuffer (mkReplayBuffer [pA; pB; pC] 4 3) 1 1 0
       (SegmentTree.new 0 4) (SegmentTree.new PosInf 4) 2) ∧
  PrioritizedReplayBuffer_add pA (Some (PArr [1; 2])) pfresh
  = (Raise TypeError,
     mkPrioritizedReplayBuffer (mkReplayBuffer [pA] 4 1) 1 1 0
       (SegmentTree.new 0 4) (SegmentTree.new PosInf 4) 2) ∧
  PrioritizedReplayBuffer_extend [] (Some (PArr [5])) pfresh
  = (Raise Exception_,
     mkPrioritizedReplayBuffer (fresh 4) 1 1 0
       (SegmentTree.new 0 4) (SegmentTree.new PosInf 4) 5).
Proof.
  assert (H : Rmax 1 2 = 2) by (apply Rmax_right; lra).
  split; [apply init_pfresh|]. split; [|split].
  - unfold PrioritizedReplayBuffer_extend, _add_or_extend, bind, super. simpl.
    rewrite H, py_max_lt by lra. reflexivity.
  - unfold PrioritizedReplayBuffer_add, _add_or_extend, bind, super. simpl.
    rewrite H, py_max_lt by lra. reflexivity.
  - unfold PrioritizedReplayBuffer_extend, _add_or_extend, bind, super. simpl.
    rewrite py_max_lt by lra. reflexivity.
Qed.

(** ** [update_priority] *)

(** C7, at the failing input: after [add(A)] in a fresh prioritized
    buffer of capacity 4 (alpha 1, eps 0), [update_priority(0, -1.0)]
    returns normally and writes the stored priority -1 to both trees,
    where [TensorDictPrioritizedReplayBuffer.update_priority] raises
    [RuntimeError] on the same slot and priority. *)
Theorem update_priority_accepts_negative :
  let rho := np_power (1 + 0) 1 in
  let self1 :=
    mkPrioritizedReplayBuffer (mkReplayBuffer [pA] 4 1) 1 1 0
      [rho; 0; 0; 0] [Fin rho; PosInf; PosInf; PosInf] 1 in
  let self2 :=
    mkPrioritizedReplayBuffer (mkReplayBuffer [pA] 4 1) 1 1 0
      [-1; 0; 0; 0] [Fin (-1); PosInf; PosInf; PosInf] 1 in
  PrioritizedReplayBuffer_add pA None pfresh = (Ok (IInt 0), self1) ∧
  update_priority (IInt 0) (PFloat (-1)) self1 = (Ok tt, self2) ∧
  TensorDict_update_priority [0%Z] [-1] self1 = (Raise RuntimeError, self1).
Proof.
  intros rho self1 self2. split; [|split].
  - reflexivity.
  - unfold update_priority, bind. simpl.
    rewrite py_max_ge by lra.
    assert (H : np_power (-1 + 0) 1 = -1).
    { rewrite (np_power_integral _ 1) by lra. simpl. lra. }
    rewrite H. reflexivity.
  - unfold TensorDict_update_priority. simpl.
    rewrite bool_decide_eq_true_2 by lra. reflexivity.
Qed.

Section UpdatePriority.
Context {A : Type}.
Implicit Types self : PrioritizedReplayBuffer A.

Lemma in_range_sized {V} (t : list V) (c i : Z) :
  length t = Z.to_nat c → (0 ≤ i < c)%Z → SegmentTree.in_range t i = true.
Proof. intros Hl Hi. unfold SegmentTree.in_range. apply bool_decide_eq_true_2. lia. Qed.

(** [update_priority(i, p)] with an integer slot inside both trees and a
    float priority. *)
Lemma update_priority_scalar self (i : Z) (p : R) :
  SegmentTree.in_range (_sum_tree self) i = true →
  SegmentTree.in_range (_min_tree self) i = true →
  update_priority (IInt i) (PFloat p) self
  = (Ok tt,
     mkPrioritizedReplayBuffer (ring self) (_alpha self) (_beta self) (_eps self)
       (<[Z.to_nat i := np_power (p + _eps self) (_alpha self)]> (_sum_tree self))
       (<[Z.to_nat i := Fin (np_power (p + _eps self) (_alpha self))]> (_min_tree self))
       (py_max (_max_priority self) p)).
Proof.
  intros Hs Hm.
  unfold update_priority, bind, get, lift, ret, modify, sum_tree_setitem,
    min_tree_setitem, SegmentTree.setitem. simpl.
  rewrite Hs. simpl. rewrite Hm. reflexivity.
Qed.

End UpdatePriority.

(** C9: for a valid slot [i] and a priority [p >= 0], [update_priority(i, p)]
    succeeds, and calling it again leaves the whole buffer (sum tree, min
    tree and [max_priority] included) exactly as the first call left it. *)
Theorem update_priority_idempotent {A} (self : PrioritizedReplayBuffer A)
    (i : Z) (p : R) :
  trees_sized self →
  (0 ≤ i < _capacity (ring self))%Z →
  0 <= p →
  ∃ self1,
    update_priority (IInt i) (PFloat p) self = (Ok tt, self1) ∧
    update_priority (IInt i) (PFloat p) self1 = (Ok tt, self1).
Proof.
  intros [Hs Hm] Hi _.
  pose proof (in_range_sized _ _ _ Hs Hi) as Hs'.
  pose proof (in_range_sized _ _ _ Hm Hi) as Hm'.
  eexists. split; [by apply update_priority_scalar|].
  rewrite update_priority_scalar; simpl.
  - by rewrite !list_insert_insert_eq, py_max_idem.
  - unfold SegmentTree.in_range in *. by rewrite length_insert.
  - unfold SegmentTree.in_range in *. by rewrite length_insert.
Qed.

Lemma update_priority_idempotent_witness :
  ∃ self1,
    update_priority (IInt 2) (PFloat 3) pfresh = (Ok tt, self1) ∧
    update_priority (IInt 2) (PFloat 3) self1 = (Ok tt, self1).
Proof.
  apply (update_priority_idempotent pfresh 2 3).
  - split; reflexivity.
  - simpl. lia.
  - lra.
Defined.

(** ** [add] and [extend] without a priority *)

Section DefaultPriority.
Context {A : Type}.
Implicit Types self : PrioritizedReplayBuffer A.

Lemma write_all_length {V} (inj : R → V) ws (t : list V) :
  length (SegmentTree.write_all inj ws t) = length t.
Proof.
  revert t. induction ws as [|w ws IH]; intros t; [done|].
  unfold SegmentTree.write_all in *. simpl. by rewrite IH, length_insert.
Qed.

(** A leaf that holds [inj x] keeps it through writes that all carry [x]. *)
Lemma write_all_const_keeps {V} (inj : R → V) (x : R) ws (t : list V) (k : nat) :
  Forall (λ w, snd w = x) ws →
  t !! k = Some (inj x) →
  SegmentTree.write_all inj ws t !! k = Some (inj x).
Proof.
  revert t. induction ws as [|w ws IH]; intros t Hall Hk; [done|].
  inversion Hall as [|? ? Hw Hall']; subst.
  unfold SegmentTree.write_all in *. simpl. apply IH; [done|].
  destruct (decide (Z.to_nat (fst w) = k)) as [->|Hne].
  - rewrite list_lookup_insert_eq; [done|]. by eapply lookup_lt_Some.
  - by rewrite list_lookup_insert_ne.
Qed.

Lemma write_all_const_lookup {V} (inj : R → V) (x : R) ws (t : list V) (w : Z * R) :
  Forall (λ w, snd w = x) ws →
  forallb (λ w, SegmentTree.in_range t (fst w)) ws = true →
  w ∈ ws →
  SegmentTree.write_all inj ws t !! Z.to_nat (fst w) = Some (inj x).
Proof.
  revert t. induction ws as [|w0 ws IH]; intros t Hall Hr Hin.
  { by apply elem_of_nil in Hin. }
  inversion Hall as [|? ? Hw Hall']; subst.
  simpl in Hr. apply andb_prop in Hr as [Hr0 Hr].
  unfold SegmentTree.in_range in Hr0. apply bool_decide_eq_true_1 in Hr0.
  apply elem_of_cons in Hin as [->|Hin].
  - change (SegmentTree.write_all inj (w0 :: ws) t)
      with (SegmentTree.write_all inj ws (<[Z.to_nat (fst w0) := inj (snd w0)]> t)).
    apply write_all_const_keeps; [done|].
    apply list_lookup_insert_eq. lia.
  - change (SegmentTree.write_all inj (w0 :: ws) t)
      with (SegmentTree.write_all inj ws (<[Z.to_nat (fst w0) := inj (snd w0)]> t)).
    apply IH; [done| |done].
    apply forallb_forall. intros w' Hw'.
    rewrite forallb_forall in Hr. specialize (Hr w' Hw').
    unfold SegmentTree.in_range in *. by rewrite length_insert.
Qed.

(** A successful [tree[index] = x] with a float [x] leaves [x] in every
    leaf of the index. *)
Lemma setitem_float_lookup {V} (inj : R → V) (ix : index) (x : R) (t t' : list V) (i : Z) :
  SegmentTree.setitem inj ix (PFloat x) t = Ok t' →
  i ∈ index_list ix →
  t' !! Z.to_nat i = Some (inj x).
Proof.
  unfold SegmentTree.setitem, SegmentTree.writes.
  destruct (forallb _ _) eqn:Hr; [|done]. intros [= <-] Hin.
  apply (write_all_const_lookup inj x _ t (i, x)); [|done|].
  - apply Forall_fmap, Forall_forall. by intros.
  - apply list_elem_of_fmap. by exists i.
Qed.



End DefaultPriority.



(** ** Sampling weights *)

Arguments Rmin : simpl never.

Section Sample.
Context {A : Type}.
Implicit Types self : PrioritizedReplayBuffer A.

Lemma foldr_min_inf_le (l : list float_inf) (k : nat) (rho : R) :
  l !! k = Some (Fin rho) →
  ∃ m, foldr min_inf PosInf l = Fin m ∧ m <= rho.
Proof.
  revert k. induction l as [|a l IH]; intros k H; [done|].
  destruct k as [|k]; simpl in *.
  - injection H as ->.
    destruct (foldr min_inf PosInf l) as [y|]; simpl.
    + exists (Rmin rho y). split; [done|apply Rmin_l].
    + exists rho. split; [done|lra].
  - destruct (IH k H) as (m & -> & Hle).
    destruct a as [x|]; simpl.
    + exists (Rmin x m). split; [done|]. etrans; [apply Rmin_r|done].
    + by exists m.
Qed.

(** The min tree's minimum over [[0, capacity)] is below every leaf of
    that range. *)
Lemma min_query_le (t : list float_inf) (c i : Z) (rho : R) :
  (0 ≤ i < c)%Z →
  t !! Z.to_nat i = Some (Fin rho) →
  ∃ m, SegmentTree.min_query t 0 c = Fin m ∧ m <= rho.
Proof.
  intros Hi Ht. unfold SegmentTree.min_query, SegmentTree.range.
  apply (foldr_min_inf_le _ (Z.to_nat i)).
  rewrite lookup_take_lt by lia. by rewrite lookup_drop.
Qed.

Lemma sum_tree_gather_Forall2 (P : Z → Prop) (t : list R) idx ws :
  sum_tree_gather t idx = Ok ws →
  Forall P idx →
  Forall2 (λ i w, P i ∧ t !! Z.to_nat i = Some w) idx ws.
Proof.
  revert ws. induction idx as [|i idx IH]; intros ws H HP; simpl in H.
  { injection H as <-. constructor. }
  inversion HP as [|? ? Hi HP']; subst.
  unfold SegmentTree.getitem in H.
  destruct (SegmentTree.in_range t i); [|done].
  destruct (t !! Z.to_nat i) as [x|] eqn:Hx; [|done].
  destruct (sum_tree_gather t idx) as [xs|e]; [|done].
  injection H as <-. constructor; [done|]. by apply IH.
Qed.

End Sample.

(** C4, counterexample: with [beta = 0] the weight of a sampled slot is 1
    although the slot does not hold the minimum stored priority.  The
    buffer (capacity 2, alpha 1, beta 0, eps 0) is the one that
    [add(A, 1.0)] and [add(B, 2.0)] leave; the mass 1.5 selects slot 1,
    whose stored priority is 2 while the minimum is 1. *)
Lemma sample_weight_one_off_minimum :
  let self0 : PrioritizedReplayBuffer payload :=
    mkPrioritizedReplayBuffer (fresh 2) 1 0 0 [0; 0] [PosInf; PosInf] 1 in
  let self1 :=
    mkPrioritizedReplayBuffer (mkReplayBuffer [pA] 2 1) 1 0 0
      [1; 0] [Fin 1; PosInf] 1 in
  let self :=
    mkPrioritizedReplayBuffer (mkReplayBuffer [pA; pB] 2 0) 1 0 0
      [1; 2] [Fin 1; Fin 2] 2 in
  PrioritizedReplayBuffer_init 2 1 0 0 = Ok self0 ∧
  PrioritizedReplayBuffer_add pA (Some (PFloat 1)) self0 = (Ok (IInt 0), self1) ∧
  PrioritizedReplayBuffer_add pB (Some (PFloat 2)) self1 = (Ok (IInt 1), self) ∧
  _sample [3 / 2] self = (Ok ([pB], [1], [1%Z]), self) ∧
  SegmentTree.min_query (_min_tree self) 0 2 = Fin 1 ∧
  _sum_tree self !! 1%nat = Some 2 ∧
  2 ≠ 1.
Proof.
  intros self0 self1 self.
  assert (Hp1 : np_power (1 + 0) 1 = 1).
  { rewrite np_power_pos by lra. rewrite Rpower_1; lra. }
  assert (Hp2 : np_power (2 + 0) 1 = 2).
  { rewrite np_power_pos by lra. rewrite Rpower_1; lra. }
  assert (Hmin : Rmin 1 2 = 1) by (apply Rmin_left; lra).
  split; [|split; [|split; [|split; [|split; [|split]]]]].
  - unfold PrioritizedReplayBuffer_init. simpl.
    rewrite !bool_decide_eq_false_2 by lra. reflexivity.
  - unfold PrioritizedReplayBuffer_add, _add_or_extend, bind, super. simpl.
    rewrite Hp1, py_max_ge by lra. reflexivity.
  - unfold PrioritizedReplayBuffer_add, _add_or_extend, bind, super. simpl.
    rewrite Hp2, py_max_lt by lra. reflexivity.
  - unfold _sample, bind. simpl.
    unfold SegmentTree.sum_query, SegmentTree.min_query. simpl.
    rewrite Hmin.
    rewrite (bool_decide_eq_false_2 (1 + (2 + 0) <= 0)) by lra. simpl.
    rewrite (bool_decide_eq_false_2 (1 <= 0)) by lra. simpl.
    rewrite (bool_decide_eq_false_2 (3 / 2 < 0 + 1)) by lra.
    rewrite (bool_decide_eq_true_2 (3 / 2 < 0 + 1 + 2)) by lra. simpl.
    assert (Hw : np_power (2 / 1) (- 0) = 1).
    { rewrite np_power_pos by lra. unfold Rpower.
      replace (- 0 * ln (2 / 1)) with 0 by lra. apply exp_0. }
    rewrite Hw. reflexivity.
  - unfold SegmentTree.min_query. simpl. by rewrite Hmin.
  - reflexivity.
  - lra.
Qed.

(** The weights of a successful [_sample] whose slots all carry a stored
    priority. *)
Lemma weights_of_prioritized_slots {A} (self self' : PrioritizedReplayBuffer A)
    (mass : list R) (data : list A) (weight : list R) (idx : list Z) :
  0 <= _beta self →
  _sample mass self = (Ok (data, weight, idx), self') →
  (∀ i, i ∈ idx → slot_prioritized self i) →
  self' = self ∧
  Forall2 (λ i w, ∃ rho m,
      _sum_tree self !! Z.to_nat i = Some rho ∧
      SegmentTree.min_query (_min_tree self) 0 (_capacity (ring self)) = Fin m ∧
      0 < m <= rho ∧
      w = np_power (rho / m) (- _beta self) ∧
      0 <= w <= 1 ∧
      (rho = m → w = 1)) idx weight.
Proof.
  intros Hbeta H Hslots.
  unfold _sample, bind, get, lift, ret, raise in H. simpl in H.
  case_bool_decide; [done|].
  destruct (le0_inf _) eqn:Hle0; [done|].
  destruct (SegmentTree.scan_lower_bound _ _) as [idx0|e]; [|done].
  destruct (gather _ _) as [data0|e]; [|done].
  destruct (sum_tree_gather _ _) as [ws|e] eqn:Hws; [|done].
  injection H as <- <- <- <-. split; [done|].
  apply Forall2_fmap_r.
  eapply Forall2_impl.
  { apply (sum_tree_gather_Forall2 (slot_prioritized self) _ _ _ Hws).
    apply Forall_forall. exact Hslots. }
  intros i w [[Hi (rho & Hs & Hm)] Hw]. simpl in Hw.
  assert (rho = w) as -> by congruence.
  destruct (min_query_le _ _ _ _ Hi Hm) as (m & Hq & Hmw).
  rewrite Hq in Hle0. simpl in Hle0. apply bool_decide_eq_false_1 in Hle0.
  exists w, m. rewrite Hq. simpl.
  destruct (weight_bounds w m (_beta self)) as (Hb & H1 & H2); [lra|done|done|].
  split; [done|]. split; [done|]. split; [lra|]. split; [done|]. split; [lra|done].
Qed.


(** ** The invariant of a prioritized buffer *)

Section WF.
Context {A : Type}.
Implicit Types self : PrioritizedReplayBuffer A.

Lemma add_slots (r : ReplayBuffer A) (x : A) :
  ring_wf r →
  ∃ r', ReplayBuffer_add x r = (Ok (_cursor r), r') ∧
        ring_wf r' ∧ _capacity r' = _capacity r ∧
        ∀ i : nat, (i < length (_storage r'))%nat →
                   (i < length (_storage r))%nat ∨ Z.of_nat i = _cursor r.
Proof.
  intros (Hcap & Hcur & Hlen & Hfill). unfold Py.len in *.
  pose proof (Z.mod_pos_bound (_cursor r + 1) (_capacity r) Hcap) as Hm.
  destruct (decide (Z.of_nat (length (_storage r)) < _capacity r)%Z) as [Hlt|Hge].
  - rewrite add_append by (unfold Py.len; lia). eexists. split; [done|].
    unfold ring_wf, Py.len. cbn [_storage _capacity _cursor].
    rewrite length_app. cbn [length].
    split; [|split; [done|]].
    + split; [lia|]. split; [lia|]. split; [lia|].
      intros H. rewrite Z.mod_small; lia.
    + intros i Hi. lia.
  - rewrite add_overwrite by (unfold Py.len; lia). eexists. split; [done|].
    unfold ring_wf, Py.len. cbn [_storage _capacity _cursor].
    rewrite length_insert.
    split; [|split; [done|]].
    + split; [lia|]. split; [lia|]. split; lia.
    + intros i Hi. lia.
Qed.

Lemma add_each_slots (vs : list A) : ∀ (r : ReplayBuffer A),
  ring_wf r →
  ∃ idx r', add_each vs r = (Ok idx, r') ∧
        ring_wf r' ∧ _capacity r' = _capacity r ∧
        ∀ i : nat, (i < length (_storage r'))%nat →
                   (i < length (_storage r))%nat ∨ Z.of_nat i ∈ idx.
Proof.
  induction vs as [|x vs IH]; intros r Hwf.
  { exists [], r. split; [done|]. split; [done|]. split; [done|].
    intros i Hi. by left. }
  destruct (add_slots r x Hwf) as (r1 & Hadd & Hwf1 & Hcap1 & Hs1).
  destruct (IH r1 Hwf1) as (idx & r' & Hrun & Hwf' & Hcap' & Hs').
  exists (_cursor r :: idx), r'. simpl. unfold bind. rewrite Hadd, Hrun.
  split; [done|]. split; [done|]. split; [congruence|].
  intros i Hi. destruct (Hs' i Hi) as [H|H].
  - destruct (Hs1 i H) as [H1|H1]; [by left|right]. rewrite <- H1. apply list_elem_of_here.
  - right. by apply list_elem_of_further.
Qed.

(** The leaves that [tree[index] = priority] writes are the slots of the
    index. *)
Lemma writes_fst (ix : index) (p : priority) ws :
  SegmentTree.writes ix p = Ok ws → ws.*1 = index_list ix.
Proof.
  unfold SegmentTree.writes. destruct p as [x|xs].
  - intros [= <-]. rewrite <- list_fmap_compose. apply list_fmap_id.
  - destruct xs as [|x [|y xs]].
    + case_bool_decide; [|done]. intros [= <-]. apply fst_zip. simpl in *. lia.
    + intros [= <-]. rewrite <- list_fmap_compose. apply list_fmap_id.
    + case_bool_decide as H; [|done]. intros [= <-]. apply fst_zip. lia.
Qed.

Lemma write_all_agree ws : ∀ (ts : list R) (tm : list float_inf),
  Forall2 leaf_agrees ts tm →
  Forall2 leaf_agrees (SegmentTree.write_all id ws ts) (SegmentTree.write_all Fin ws tm).
Proof.
  induction ws as [|w ws IH]; intros ts tm H; [done|].
  unfold SegmentTree.write_all in *. simpl. apply IH.
  apply Forall2_insert; [done|]. by left.
Qed.

Lemma write_all_keeps_Fin ws : ∀ (tm : list float_inf) (k : nat) (x : R),
  tm !! k = Some (Fin x) →
  ∃ x', SegmentTree.write_all Fin ws tm !! k = Some (Fin x').
Proof.
  induction ws as [|w ws IH]; intros tm k x H; [by exists x|].
  unfold SegmentTree.write_all in *. simpl.
  destruct (decide (Z.to_nat (fst w) = k)) as [<-|Hne].
  - apply (IH _ _ (snd w)). apply list_lookup_insert_eq. by eapply lookup_lt_Some.
  - apply (IH _ _ x). by rewrite list_lookup_insert_ne.
Qed.

Lemma write_all_writes_Fin ws : ∀ (tm : list float_inf) (i : Z),
  forallb (λ w, SegmentTree.in_range tm (fst w)) ws = true →
  i ∈ ws.*1 →
  ∃ x', SegmentTree.write_all Fin ws tm !! Z.to_nat i = Some (Fin x').
Proof.
  induction ws as [|w ws IH]; intros tm i Hr Hi.
  { by apply elem_of_nil in Hi. }
  simpl in Hr. apply andb_prop in Hr as [Hr0 Hr].
  unfold SegmentTree.in_range in Hr0. apply bool_decide_eq_true_1 in Hr0.
  change (SegmentTree.write_all Fin (w :: ws) tm)
    with (SegmentTree.write_all Fin ws (<[Z.to_nat (fst w) := Fin (snd w)]> tm)).
  simpl in Hi. apply elem_of_cons in Hi as [->|Hi].
  - apply (write_all_keeps_Fin _ _ _ (snd w)). apply list_lookup_insert_eq. lia.
  - apply IH; [|done].
    apply forallb_forall. intros w' Hw'.
    rewrite forallb_forall in Hr. specialize (Hr w' Hw').
    unfold SegmentTree.in_range in *. by rewrite length_insert.
Qed.


(** What a successful [tree[index] = priority] on both trees leaves. *)
Lemma setitem_both_wf (ix : index) (p : priority)
    (ts ts' : list R) (tm tm' : list float_inf) :
  SegmentTree.setitem id ix p ts = Ok ts' →
  SegmentTree.setitem Fin ix p tm = Ok tm' →
  Forall2 leaf_agrees ts tm →
  length ts' = length ts ∧ length tm' = length tm ∧
  Forall2 leaf_agrees ts' tm' ∧
  (∀ (k : nat) x, tm !! k = Some (Fin x) → ∃ x', tm' !! k = Some (Fin x')) ∧
  (∀ i, i ∈ index_list ix → ∃ x', tm' !! Z.to_nat i = Some (Fin x')).
Proof.
  unfold SegmentTree.setitem.
  destruct (SegmentTree.writes ix p) as [ws|e] eqn:Hws; [|done].
  destruct (forallb _ ws) eqn:Hrs; [|done].
  destruct (forallb (λ w, SegmentTree.in_range tm w.1) ws) eqn:Hrm; [|done].
  intros [= <-] [= <-] Hag.
  rewrite !write_all_length.
  split; [done|]. split; [done|]. split; [by apply write_all_agree|]. split.
  - intros k x. apply write_all_keeps_Fin.
  - intros i Hi. apply write_all_writes_Fin; [done|].
    by rewrite (writes_fst _ _ _ Hws).
Qed.

Lemma add_or_extend_success (data : A + list A) (prio : option priority)
    self (ix : index) self' :
  _add_or_extend data prio self = (Ok ix, self') →
  ∃ (p : priority),
    match data with
    | inl x => ∃ i, ReplayBuffer_add x (ring self) = (Ok i, ring self') ∧ ix = IInt i
    | inr xs => ∃ idx, ReplayBuffer_extend xs (ring self) = (Ok idx, ring self') ∧
                       ix = IArr idx
    end ∧
    SegmentTree.setitem id ix p (_sum_tree self) = Ok (_sum_tree self') ∧
    SegmentTree.setitem Fin ix p (_min_tree self) = Ok (_min_tree self').
Proof.
  unfold _add_or_extend, bind, get, ret, lift, raise, modify, super,
    sum_tree_setitem, min_tree_setitem.
  intros H.
  exists (match prio with
          | Some p0 => stored_priority (_eps self) (_alpha self) p0
          | None => PFloat (_default_priority self)
          end).
  destruct prio as [p0|]; [destruct (np_max p0) as [m|e]; [|done]|];
    destruct data as [x|xs]; simpl in H.
  all: repeat case_match; simplify_eq; simpl in *.
  all: split; [by eexists|done].
Qed.

Lemma update_priority_success (ix : index) (p0 : priority) self self' :
  update_priority ix p0 self = (Ok tt, self') →
  ∃ (p : priority),
    ring self' = ring self ∧
    SegmentTree.setitem id ix p (_sum_tree self) = Ok (_sum_tree self') ∧
    SegmentTree.setitem Fin ix p (_min_tree self) = Ok (_min_tree self').
Proof.
  unfold update_priority, bind, get, ret, lift, raise, modify,
    sum_tree_setitem, min_tree_setitem.
  intros H.
  destruct ix as [i|idx]; destruct p0 as [x|xs]; simpl in H.
  all: repeat case_match; simplify_eq; simpl in *.
  all: by eexists.
Qed.

(** Every successful write of priorities keeps the invariant, given the
    ring it leaves. *)
Lemma prioritized_wf_step self self' (ix : index) (p : priority) :
  prioritized_wf self →
  ring_wf (ring self') →
  _capacity (ring self') = _capacity (ring self) →
  (∀ i : nat, (i < length (_storage (ring self')))%nat →
              (i < length (_storage (ring self)))%nat ∨ Z.of_nat i ∈ index_list ix) →
  SegmentTree.setitem id ix p (_sum_tree self) = Ok (_sum_tree self') →
  SegmentTree.setitem Fin ix p (_min_tree self) = Ok (_min_tree self') →
  prioritized_wf self'.
Proof.
  intros (Hring & [Hs Hm] & Hag & Hfin) Hring' Hcap Hslots Hts Htm.
  destruct (setitem_both_wf _ _ _ _ _ _ Hts Htm Hag) as (Hls & Hlm & Hag' & Hkeep & Hnew).
  split; [done|]. split; [|split; [done|]].
  - unfold trees_sized. rewrite Hls, Hlm, Hcap. done.
  - intros i Hi. destruct (Hslots i Hi) as [Hold|Hidx].
    + destruct (Hfin i Hold) as [x Hx]. by eapply Hkeep.
    + destruct (Hnew _ Hidx) as [x' Hx']. exists x'. by rewrite Nat2Z.id in Hx'.
Qed.

End WF.

(** The invariant holds in a fresh buffer of positive capacity, and every
    successful [add], [update_priority] and [extend] (of a batch whose
    wrapped part is shorter than the capacity) keeps it. *)
Theorem prioritized_wf_init {A} (size : Z) (alpha beta eps : R)
    (self : PrioritizedReplayBuffer A) :
  (0 < size)%Z →
  PrioritizedReplayBuffer_init size alpha beta eps = Ok self →
  prioritized_wf self.
Proof.
  intros Hsize H. unfold PrioritizedReplayBuffer_init in H. simpl in H.
  repeat case_bool_decide; try done. injection H as <-.
  unfold prioritized_wf, trees_sized, ring_wf, SegmentTree.new, Py.len. simpl.
  rewrite !length_replicate.
  split; [lia|]. split; [done|]. split.
  - apply Forall2_replicate. by right.
  - intros i Hi. lia.
Qed.

Theorem prioritized_wf_add_or_extend {A} (data : A + list A) (prio : option priority)
    (self self' : PrioritizedReplayBuffer A) (ix : index) :
  prioritized_wf self →
  match data with
  | inl _ => True
  | inr xs => (_cursor (ring self) + Py.len xs < 2 * _capacity (ring self))%Z
  end →
  _add_or_extend data prio self = (Ok ix, self') →
  prioritized_wf self'.
Proof.
  intros Hwf Hb H.
  destruct (add_or_extend_success _ _ _ _ _ H) as (p & Hring & Hts & Htm).
  pose proof Hwf as (Hr & _).
  destruct data as [x|xs].
  - destruct Hring as (i & Hadd & ->).
    destruct (add_slots (ring self) x Hr) as (r' & Hadd' & Hr' & Hcap & Hslots).
    rewrite Hadd in Hadd'. injection Hadd' as -> <-.
    apply (prioritized_wf_step self self' (IInt (_cursor (ring self))) p Hwf);
      try done.
    intros k Hk. destruct (Hslots k Hk) as [?|Hc]; [by left|right].
    simpl. rewrite Hc. apply list_elem_of_here.
  - destruct Hring as (idx & Hext & ->).
    assert (Hne : xs ≠ []).
    { intros ->. unfold ReplayBuffer_extend in Hext. simpl in Hext. done. }
    rewrite extend_as_add_each in Hext by done.
    destruct (add_each_slots xs (ring self) Hr) as (idx' & r' & Hrun & Hr' & Hcap & Hslots).
    rewrite Hext in Hrun. injection Hrun as <- <-.
    by apply (prioritized_wf_step self self' (IArr idx) p Hwf).
Qed.

Theorem prioritized_wf_update_priority {A} (ix : index) (p : priority)
    (self self' : PrioritizedReplayBuffer A) :
  prioritized_wf self →
  update_priority ix p self = (Ok tt, self') →
  prioritized_wf self'.
Proof.
  intros Hwf H.
  destruct (update_priority_success _ _ _ _ H) as (p' & Hring & Hts & Htm).
  pose proof Hwf as (Hr & _).
  apply (prioritized_wf_step self self' ix p' Hwf); rewrite ?Hring; try done.
  intros i Hi. by left.
Qed.

Lemma sum_tree_gather_in_range (t : list R) (idx : list Z) (ws : list R) :
  sum_tree_gather t idx = Ok ws →
  ∀ i, i ∈ idx → (0 ≤ i < Z.of_nat (length t))%Z.
Proof.
  revert ws. induction idx as [|j idx IH]; intros ws H i Hi.
  { by apply elem_of_nil in Hi. }
  simpl in H. unfold SegmentTree.getitem, SegmentTree.in_range in H.
  case_bool_decide as Hj; [|done].
  destruct (t !! Z.to_nat j); [|done].
  destruct (sum_tree_gather t idx) as [xs|e] eqn:Hxs; [|done].
  apply elem_of_cons in Hi as [->|Hi]; [done|]. by eapply IH.
Qed.

(** In a buffer that satisfies the invariant, every slot that a
    successful [_sample] returns carries a stored priority. *)
Lemma sampled_slots_prioritized {A} (self self' : PrioritizedReplayBuffer A)
    (mass : list R) (data : list A) (weight : list R) (idx : list Z) :
  prioritized_wf self →
  _sample mass self = (Ok (data, weight, idx), self') →
  ∀ i, i ∈ idx → slot_prioritized self i.
Proof.
  intros (Hring & [Hs Hm] & Hag & Hfin) H.
  unfold _sample, bind, get, lift, ret, raise in H. simpl in H.
  case_bool_decide; [done|].
  destruct (le0_inf _); [done|].
  destruct (SegmentTree.scan_lower_bound _ _) as [idx0|e]; [|done].
  destruct (gather _ _) as [data0|e] eqn:Hg; [|done].
  destruct (sum_tree_gather _ _) as [ws|e] eqn:Hws; [|done].
  injection H as <- <- <- <-.
  intros i Hi.
  pose proof (sum_tree_gather_in_range _ _ _ Hws i Hi) as Hrange.
  assert (Hclip : (i ≤ Py.len (_storage (ring self)) - 1)%Z).
  { unfold clip_max in Hi. apply list_elem_of_fmap in Hi as (j & -> & _). lia. }
  unfold Py.len in Hclip.
  destruct (Hfin (Z.to_nat i)) as [x Hx]; [lia|].
  destruct (Forall2_lookup_r _ _ _ _ _ Hag Hx) as (x' & Hx' & Hleaf).
  split; [lia|]. exists x.
  destruct Hleaf as [[= ->]|[? _]]; done.
Qed.

(** C4, amended: in every prioritized buffer that satisfies the invariant
    [prioritized_wf] (construction with a positive capacity establishes
    it; every successful [add] and [update_priority] keeps it, and so does
    every successful [extend] of a batch whose wrapped part is shorter
    than the capacity), a successful [_sample] returns, for each sampled
    slot, the weight [(rho / m) ** (-beta)] of the stored priority [rho]
    of the slot and the min-tree minimum [m], where [0 < m <= rho]; the
    weight satisfies [0 <= w <= 1] and it is 1 when the slot holds the
    minimum.  Nothing more is stated of the weight: with [beta = 0] every
    weight is 1, and the float64 arithmetic of the code, which the reals
    of this development leave out, rounds a weight near 1 to 1 and lets a
    weight near 0 underflow to 0. *)
Theorem sample_weights {A} (self self' : PrioritizedReplayBuffer A)
    (mass : list R) (data : list A) (weight : list R) (idx : list Z) :
  prioritized_wf self →
  0 <= _beta self →
  _sample mass self = (Ok (data, weight, idx), self') →
  self' = self ∧
  Forall2 (λ i w, ∃ rho m,
      _sum_tree self !! Z.to_nat i = Some rho ∧
      SegmentTree.min_query (_min_tree self) 0 (_capacity (ring self)) = Fin m ∧
      0 < m <= rho ∧
      w = np_power (rho / m) (- _beta self) ∧
      0 <= w <= 1 ∧
      (rho = m → w = 1)) idx weight.
Proof.
  intros Hwf Hbeta H.
  apply (weights_of_prioritized_slots self self' mass data weight idx Hbeta H).
  by eapply sampled_slots_prioritized.
Qed.

Lemma sample_weights_witness :
  let self : PrioritizedReplayBuffer payload :=
    mkPrioritizedReplayBuffer (mkReplayBuffer [pA; pB] 2 0) 1 1 0
      [1; 2] [Fin 1; Fin 2] 2 in
  self = self ∧
  Forall2 (λ i w, ∃ rho m,
      _sum_tree self !! Z.to_nat i = Some rho ∧
      SegmentTree.min_query (_min_tree self) 0 (_capacity (ring self)) = Fin m ∧
      0 < m <= rho ∧
      w = np_power (rho / m) (- _beta self) ∧
      0 <= w <= 1 ∧
      (rho = m → w = 1))
    [0%Z; 1%Z] [np_power (1 / 1) (- (1)); np_power (2 / 1) (- (1))].
Proof.
  intros self.
  apply (sample_weights self self [1 / 2; 3 / 2] [pA; pB]).
  - split; [|split; [|split]].
    + unfold ring_wf, Py.len. simpl. lia.
    + split; reflexivity.
    + simpl. repeat constructor; by left.
    + intros i Hi. simpl in Hi.
      destruct i as [|[|i]]; simpl; [by exists 1|by exists 2|lia].
  - simpl. lra.
  - assert (Hmin : Rmin 1 2 = 1) by (apply Rmin_left; lra).
    unfold _sample, bind. simpl.
    unfold SegmentTree.sum_query, SegmentTree.min_query. simpl.
    rewrite Hmin.
    rewrite (bool_decide_eq_false_2 (1 + (2 + 0) <= 0)) by lra. simpl.
    rewrite (bool_decide_eq_false_2 (1 <= 0)) by lra. simpl.
    rewrite (bool_decide_eq_true_2 (1 / 2 < 0 + 1)) by lra.
    rewrite (bool_decide_eq_false_2 (3 / 2 < 0 + 1)) by lra.
    rewrite (bool_decide_eq_true_2 (3 / 2 < 0 + 1 + 2)) by lra. simpl.
    reflexivity.
Defined.

Close Scope R_scope.

(** ** Reads and writes of the ring *)

Section RingHistory.
Context {A : Type}.
Implicit Types self : ReplayBuffer A.
Implicit Types H vs : list A.





End RingHistory.


Section GetItems.
Context {A : Type}.
Implicit Types self : ReplayBuffer A.

Lemma getitem_valid (l : list A) (i : Z) :
  - Py.len l ≤ i < Py.len l →
  ∃ x, l !! Z.to_nat (i mod Py.len l) = Some x ∧ Py.getitem l i = Ok x.
Proof.
  intros Hi. unfold Py.len, Py.getitem, Py.norm_index in *.
  destruct (decide (0 ≤ i)) as [Hpos|Hneg].
  - rewrite bool_decide_eq_true_2 by lia. rewrite Z.mod_small by lia.
    destruct (lookup_lt_is_Some_2 l (Z.to_nat i)) as [x Hx]; [lia|].
    exists x. by rewrite Hx.
  - rewrite bool_decide_eq_false_2 by lia. rewrite bool_decide_eq_true_2 by lia.
    assert (Hm : i mod Z.of_nat (length l) = Z.of_nat (length l) + i).
    { symmetry. apply (Z.mod_unique_pos _ _ (-1)); lia. }
    rewrite Hm.
    destruct (lookup_lt_is_Some_2 l (Z.to_nat (Z.of_nat (length l) + i))) as [x Hx];
      [lia|].
    exists x. by rewrite Hx.
Qed.

Lemma getitem_invalid (l : list A) (i : Z) :
  ¬ (- Py.len l ≤ i < Py.len l) → Py.getitem l i = Raise IndexError.
Proof.
  intros Hi. unfold Py.len, Py.getitem, Py.norm_index in *.
  by rewrite !bool_decide_eq_false_2 by lia.
Qed.



End GetItems.





(** X3: on a ring whose cursor is a slot, [extend] with a batch that is
    not empty and ends before [2 * capacity], counted from slot 0 (every
    batch of at most [capacity] payloads does), succeeds, returns one
    slot for each payload, and returns the slots and leaves the buffer
    that adding the payloads one at a time returns and leaves; the cursor
    is a slot again. *)
Theorem extend_agrees_with_adds {A} (self : ReplayBuffer A) (data : list A) :
  ring_wf self →
  data ≠ [] →
  _cursor self + Py.len data < 2 * _capacity self →
  ∃ idx self',
    ReplayBuffer_extend data self = (Ok idx, self') ∧
    add_each data self = (Ok idx, self') ∧
    length idx = length data ∧
    ring_wf self'.
Proof.
  intros Hwf Hne Hwrap.
  destruct (add_each_slots data self Hwf) as (idx & self' & Hrun & Hwf' & _ & _).
  exists idx, self'. rewrite extend_as_add_each by done.
  split; [done|]. split; [done|]. split; [|done].
  clear -Hrun. revert self idx self' Hrun.
  induction data as [|x data IH]; intros self idx self' Hrun; simpl in Hrun.
  { by injection Hrun as <- _. }
  unfold bind in Hrun.
  destruct (ReplayBuffer_add x self) as [[i|e] s1]; [|done].
  destruct (add_each data s1) as [[idx'|e] s2] eqn:Hd; [|done].
  injection Hrun as <- _. simpl. f_equal. by eapply IH.
Qed.

Lemma extend_agrees_with_adds_witness :
  ∃ idx self',
    ReplayBuffer_extend [pA; pB; pC; pD; pE] (mkReplayBuffer [pF; pG] 4 2)
      = (Ok idx, self') ∧
    add_each [pA; pB; pC; pD; pE] (mkReplayBuffer [pF; pG] 4 2) = (Ok idx, self') ∧
    length idx = length [pA; pB; pC; pD; pE] ∧
    ring_wf self'.
Proof.
  apply (extend_agrees_with_adds (mkReplayBuffer [pF; pG] 4 2) [pA; pB; pC; pD; pE]).
  - unfold ring_wf, Py.len. simpl. lia.
  - discriminate.
  - unfold Py.len. simpl. lia.
Defined.



(** X5: a buffer of capacity 0 takes no payload: every [add] raises.
    When the cursor is not below the length (as in a new buffer) the
    payload is appended before the cursor is reduced modulo the capacity,
    so the call raises [ZeroDivisionError] and leaves the storage one
    payload longer. *)
Theorem add_with_capacity_zero {A} (self : ReplayBuffer A) (x : A) :
  _capacity self = 0 →
  (∃ e self', ReplayBuffer_add x self = (Raise e, self')) ∧
  (Py.len (_storage self) ≤ _cursor self →
     ReplayBuffer_add x self
     = (Raise ZeroDivisionError, set_storage (_storage self ++ [x]) self)).
Proof.
  intros Hcap.
  unfold ReplayBuffer_add, bind, get, lift, modify, ret, storage_iadd,
    storage_setitem, Py.mod_.
  rewrite Hcap. split.
  - case_bool_decide; simpl; [by eexists _, _|].
    destruct (Py.setitem _ _ _); simpl; by eexists _, _.
  - intros Hc. by rewrite bool_decide_eq_true_2 by lia.
Qed.

Lemma add_with_capacity_zero_witness :
  (∃ e self', ReplayBuffer_add pA (fresh 0) = (Raise e, self')) ∧
  ReplayBuffer_add pA (fresh 0)
  = (Raise ZeroDivisionError, set_storage (_storage (fresh 0) ++ [pA]) (fresh 0)).
Proof.
  destruct (add_with_capacity_zero (fresh 0) pA) as [H1 H2]; [reflexivity|].
  split; [exact H1|]. apply H2. unfold Py.len. simpl. lia.
Defined.

Lemma ring_occupancy_within_capacity_witness :
  ∃ self',
    run_calls [Extend [pA; pB; pC]; Add pD; Extend [pE; pF]] (mkReplayBuffer [] 4 0)
      = (Ok tt, self') ∧
    ReplayBuffer_len self'
      = Z.min (written [Extend [pA; pB; pC]; Add pD; Extend [pE; pF]]) 4 ∧
    _cursor self' = written [Extend [pA; pB; pC]; Add pD; Extend [pE; pF]] mod 4 ∧
    0 ≤ _cursor self' < 4.
Proof.
  apply (ring_occupancy_within_capacity 4).
  - lia.
  - repeat constructor; unfold Py.len; simpl; lia.
Defined.


(** ** Reads and writes of a prioritized buffer *)

Open Scope R_scope.

Section Reach.
Context {A : Type}.
Implicit Types self : PrioritizedReplayBuffer A.

Lemma add_or_extend_capacity (data : A + list A) prio self ix self' :
  prioritized_wf self →
  match data with
  | inl _ => True
  | inr xs => (_cursor (ring self) + Py.len xs < 2 * _capacity (ring self))%Z
  end →
  _add_or_extend data prio self = (Ok ix, self') →
  _capacity (ring self') = _capacity (ring self).
Proof.
  intros (Hr & _) Hb H.
  destruct (add_or_extend_success _ _ _ _ _ H) as (p & Hring & _).
  destruct data as [x|xs].
  - destruct Hring as (i & Hadd & _).
    destruct (add_slots (ring self) x Hr) as (r' & Hadd' & _ & Hcap & _).
    rewrite Hadd in Hadd'. by injection Hadd' as _ <-.
  - destruct Hring as (idx & Hext & _).
    assert (Hne : xs ≠ []).
    { intros ->. unfold ReplayBuffer_extend in Hext. simpl in Hext. done. }
    rewrite extend_as_add_each in Hext by done.
    destruct (add_each_slots xs (ring self) Hr) as (idx' & r' & Hrun & _ & Hcap & _).
    rewrite Hext in Hrun. by injection Hrun as _ <-.
Qed.

Lemma run_pcall_wf (cl : pcall A) (c : Z) self self' :
  prioritized_wf self → _capacity (ring self) = c →
  pbatch_within c cl →
  run_pcall cl self = (Ok tt, self') →
  prioritized_wf self' ∧ _capacity (ring self') = c.
Proof.
  intros Hwf Hc Hb H. pose proof Hwf as ((_ & Hcur & _) & _).
  destruct cl as [x prio|xs prio|ix p]; simpl in H.
  - unfold bind, PrioritizedReplayBuffer_add in H.
    destruct (_add_or_extend (inl x) prio self) as [[ix|e] s] eqn:Hrun; [|done].
    unfold ret in H. injection H as <-. split.
    + by eapply (prioritized_wf_add_or_extend (inl x)).
    + rewrite <- Hc. by eapply (add_or_extend_capacity (inl x)).
  - unfold bind, PrioritizedReplayBuffer_extend in H.
    destruct (_add_or_extend (inr xs) prio self) as [[ix|e] s] eqn:Hrun; [|done].
    unfold ret in H. injection H as <-.
    assert (Hw : (_cursor (ring self) + Py.len xs < 2 * _capacity (ring self))%Z).
    { simpl in Hb. lia. }
    split.
    + by eapply (prioritized_wf_add_or_extend (inr xs)).
    + rewrite <- Hc. by eapply (add_or_extend_capacity (inr xs)).
  - split; [by eapply prioritized_wf_update_priority|].
    destruct (update_priority_success _ _ _ _ H) as (_ & -> & _). done.
Qed.

Lemma wf_slot_prioritized self (i : Z) :
  prioritized_wf self →
  (0 ≤ i < Py.len (_storage (ring self)))%Z →
  slot_prioritized self i.
Proof.
  intros ((_ & _ & Hlen & _) & _ & Hag & Hfin) Hi. unfold Py.len in *.
  destruct (Hfin (Z.to_nat i)) as [x Hx]; [lia|].
  destruct (Forall2_lookup_r _ _ _ _ _ Hag Hx) as (x' & Hx' & Hleaf).
  split; [lia|]. exists x.
  destruct Hleaf as [[= ->]|[? _]]; done.
Qed.

End Reach.

(** X8: the invariant of a prioritized buffer holds in every state that
    is reached.  After construction with a positive capacity and any
    sequence of [add], [extend] (batches of at most the capacity) and
    [update_priority] calls that all return, the buffer satisfies
    [prioritized_wf], its capacity is the one it was built with, and
    every occupied slot has a priority in both trees. *)
Theorem reachable_slots_prioritized {A} (size : Z) (alpha beta eps : R)
    (calls : list (pcall A)) (self0 self' : PrioritizedReplayBuffer A) :
  (0 < size)%Z →
  Forall (pbatch_within size) calls →
  PrioritizedReplayBuffer_init size alpha beta eps = Ok self0 →
  run_pcalls calls self0 = (Ok tt, self') →
  prioritized_wf self' ∧
  _capacity (ring self') = size ∧
  ∀ i, (0 ≤ i < Py.len (_storage (ring self')))%Z → slot_prioritized self' i.
Proof.
  intros Hsize Hb Hinit Hrun.
  pose proof (prioritized_wf_init size alpha beta eps self0 Hsize Hinit) as Hwf0.
  assert (Hc0 : _capacity (ring self0) = size).
  { unfold PrioritizedReplayBuffer_init in Hinit. simpl in Hinit.
    repeat case_bool_decide; try done. by injection Hinit as <-. }
  clear Hinit.
  assert (Hgo : prioritized_wf self' ∧ _capacity (ring self') = size).
  { revert self0 Hwf0 Hc0 Hrun.
    induction Hb as [|cl calls Hcl _ IH]; intros self0 Hwf0 Hc0 Hrun; simpl in Hrun.
    { unfold ret in Hrun. by injection Hrun as <-. }
    unfold bind in Hrun.
    destruct (run_pcall cl self0) as [[[]|e] s1] eqn:Hstep; [|done].
    destruct (run_pcall_wf cl size self0 s1 Hwf0 Hc0 Hcl Hstep) as [Hwf1 Hc1].
    by apply (IH s1). }
  destruct Hgo as [Hwf Hc]. split; [done|]. split; [done|].
  intros i Hi. by apply wf_slot_prioritized.
Qed.

Lemma reachable_slots_prioritized_witness :
  let self' : PrioritizedReplayBuffer payload :=
    mkPrioritizedReplayBuffer (mkReplayBuffer [pA; pB; pC] 4 3) 1 1 0
      [np_power (3 + 0) 1; np_power (2 + 0) 1; np_power (2 + 0) 1; 0]
      [Fin (np_power (3 + 0) 1); Fin (np_power (2 + 0) 1);
       Fin (np_power (2 + 0) 1); PosInf] 3 in
  prioritized_wf self' ∧
  _capacity (ring self') = 4%Z ∧
  ∀ i, (0 ≤ i < Py.len (_storage (ring self')))%Z → slot_prioritized self' i.
Proof.
  intros self'.
  apply (reachable_slots_prioritized 4 1 1 0
           [PAdd pA None; PExtend [pB; pC] (Some (PFloat 2));
            PUpdate (IInt 0) (PFloat 3)] pfresh self').
  - lia.
  - repeat (apply Forall_cons_2;
              [unfold pbatch_within, Py.len; simpl; try lia; try exact I|]).
    apply Forall_nil_2.
  - apply init_pfresh.
  - unfold run_pcalls, run_pcall, bind, PrioritizedReplayBuffer_add,
      PrioritizedReplayBuffer_extend, _add_or_extend, update_priority, super.
    simpl. rewrite (py_max_lt 1 2) by lra. simpl.
    rewrite (py_max_lt 2 3) by lra. reflexivity.
Defined.

Lemma py_max_le (a b : R) : a <= py_max a b.
Proof. unfold py_max. case_bool_decide; lra. Qed.

Lemma py_max_ge_r (a b : R) : b <= py_max a b.
Proof. unfold py_max. case_bool_decide; lra. Qed.

Section MaxPriority.
Context {A : Type}.
Implicit Types self : PrioritizedReplayBuffer A.

(** What [_add_or_extend] leaves in [_max_priority], whatever its outcome. *)
Lemma add_or_extend_max (data : A + list A) (prio : option priority) self :
  _max_priority (snd (_add_or_extend data prio self))
  = match prio with
    | Some p0 => match np_max p0 with
                 | Ok m => py_max (_max_priority self) m
                 | Raise _ => _max_priority self
                 end
    | None => _max_priority self
    end.
Proof.
  unfold _add_or_extend, bind, get, ret, lift, raise, modify, super,
    sum_tree_setitem, min_tree_setitem.
  destruct prio as [p0|]; [destruct (np_max p0) as [m|e]|];
    destruct data as [x|xs]; simpl.
  all: repeat case_match; simplify_eq; simpl in *; done.
Qed.

(** What [update_priority] leaves in [_max_priority]. *)
Lemma update_priority_max (ix : index) (p : priority) self :
  (_max_priority (snd (update_priority ix p self)) = _max_priority self ∧
   fst (update_priority ix p self) ≠ Ok tt) ∨
  ∃ m, np_max p = Ok m ∧
       _max_priority (snd (update_priority ix p self))
       = py_max (_max_priority self) m.
Proof.
  unfold update_priority, bind, get, ret, lift, raise, modify,
    sum_tree_setitem, min_tree_setitem.
  destruct ix as [i|idx]; destruct p as [x|xs]; simpl.
  all: repeat case_match; simplify_eq; simpl in *;
    try (by left); right; by eexists.
Qed.

End MaxPriority.

(** X9: [max_priority] never decreases.  [add], [extend] and
    [update_priority] leave it at least as large as it was, whether they
    return or raise; with a priority given to [add] or [extend], and after
    an [update_priority] that returns, it is at least the largest of the
    priorities of the call. *)
Theorem max_priority_never_decreases {A} (self : PrioritizedReplayBuffer A)
    (data : A + list A) (prio : option priority) (ix : index) (p : priority) :
  _max_priority self <= _max_priority (snd (_add_or_extend data prio self)) ∧
  _max_priority self <= _max_priority (snd (update_priority ix p self)) ∧
  (∀ p0 m, prio = Some p0 → np_max p0 = Ok m →
     m <= _max_priority (snd (_add_or_extend data prio self))) ∧
  (∀ m, fst (update_priority ix p self) = Ok tt → np_max p = Ok m →
     m <= _max_priority (snd (update_priority ix p self))).
Proof.
  split; [|split; [|split]].
  - rewrite add_or_extend_max.
    destruct prio as [p0|]; [destruct (np_max p0)|]; try lra. apply py_max_le.
  - destruct (update_priority_max ix p self) as [[-> _]|(m & _ & ->)];
      [lra|apply py_max_le].
  - intros p0 m -> Hm. rewrite add_or_extend_max, Hm. apply py_max_ge_r.
  - intros m Hok Hm.
    destruct (update_priority_max ix p self) as [[_ Hne]|(m' & Hm' & ->)]; [done|].
    rewrite Hm in Hm'. injection Hm' as <-. apply py_max_ge_r.
Qed.

Lemma max_priority_never_decreases_witness :
  (5 <= _max_priority (snd (_add_or_extend (inl pA) (Some (PFloat 5)) pfresh))) ∧
  (7 <= _max_priority (snd (update_priority (IInt 0) (PFloat 7) pfresh))).
Proof.
  destruct (max_priority_never_decreases pfresh (inl pA) (Some (PFloat 5))
              (IInt 0) (PFloat 7)) as (_ & _ & H1 & H2).
  split.
  - apply (H1 (PFloat 5)); reflexivity.
  - apply H2; reflexivity.
Defined.

Section Idempotence.
Context {V : Type}.
Implicit Types (t : list V) (ws : list (Z * R)).

Lemma write_all_app (inj : R → V) ws1 ws2 t :
  SegmentTree.write_all inj (ws1 ++ ws2) t
  = SegmentTree.write_all inj ws2 (SegmentTree.write_all inj ws1 t).
Proof. unfold SegmentTree.write_all. apply foldl_app. Qed.

Lemma write_all_absorbed (inj : R → V) ws : ∀ t (k : nat) (v v' : V),
  <[k := v]> (SegmentTree.write_all inj ws (<[k := v']> t))
  = <[k := v]> (SegmentTree.write_all inj ws t).
Proof.
  induction ws as [|w ws IH]; intros t k v v'.
  { unfold SegmentTree.write_all. simpl. apply list_insert_insert_eq. }
  change (SegmentTree.write_all inj (w :: ws) ?u)
    with (SegmentTree.write_all inj ws (<[Z.to_nat (fst w) := inj (snd w)]> u)).
  destruct (decide (Z.to_nat (fst w) = k)) as [->|Hne].
  - by rewrite list_insert_insert_eq.
  - rewrite list_insert_insert_ne by done. apply IH.
Qed.

Lemma write_all_single (inj : R → V) (w : Z * R) t :
  SegmentTree.write_all inj [w] t = <[Z.to_nat (fst w) := inj (snd w)]> t.
Proof. reflexivity. Qed.

Lemma write_all_idem (inj : R → V) ws t :
  SegmentTree.write_all inj ws (SegmentTree.write_all inj ws t)
  = SegmentTree.write_all inj ws t.
Proof.
  revert t. induction ws as [|w ws IH] using rev_ind; intros t; [done|].
  rewrite !write_all_app, !write_all_single.
  rewrite write_all_absorbed. by rewrite IH.
Qed.

Lemma setitem_idem (inj : R → V) (ix : index) (p : priority) t t' :
  SegmentTree.setitem inj ix p t = Ok t' →
  SegmentTree.setitem inj ix p t' = Ok t'.
Proof.
  unfold SegmentTree.setitem.
  destruct (SegmentTree.writes ix p) as [ws|e]; [|done].
  destruct (forallb _ ws) eqn:Hr; [|done]. intros [= <-].
  assert (Hr' : forallb (λ w, SegmentTree.in_range (SegmentTree.write_all inj ws t) w.1) ws
                = true).
  { apply forallb_forall. intros w Hw. rewrite forallb_forall in Hr.
    specialize (Hr w Hw). unfold SegmentTree.in_range in *.
    by rewrite write_all_length. }
  by rewrite Hr', write_all_idem.
Qed.

End Idempotence.

Section UpdateSteps.
Context {A : Type}.
Implicit Types self : PrioritizedReplayBuffer A.

(** [update_priority], step by step. *)
Lemma update_priority_steps (ix : index) (p : priority) self :
  update_priority ix p self
  = match update_priority_args ix p with
    | Raise e => (Raise e, self)
    | Ok p' =>
        match np_max p' with
        | Raise e => (Raise e, self)
        | Ok m =>
            let s1 := set_max_priority (py_max (_max_priority self) m) self in
            let rho := stored_priority (_eps self) (_alpha self) p' in
            match SegmentTree.setitem id ix rho (_sum_tree self) with
            | Raise e => (Raise e, s1)
            | Ok ts =>
                match SegmentTree.setitem Fin ix rho (_min_tree self) with
                | Raise e => (Raise e, set_sum_tree ts s1)
                | Ok tm => (Ok tt, set_min_tree tm (set_sum_tree ts s1))
                end
            end
        end
    end.
Proof.
  unfold update_priority, update_priority_args, bind, get, ret, lift, raise,
    modify, sum_tree_setitem, min_tree_setitem.
  destruct ix as [i|idx]; destruct p as [x|xs]; simpl.
  all: repeat (simpl; case_match; simplify_eq); simpl; done.
Qed.

End UpdateSteps.

Lemma writes_after_args (ix : index) (p p' : priority) (eps alpha : R) :
  update_priority_args ix p = Ok p' →
  ∃ ws, SegmentTree.writes ix (stored_priority eps alpha p') = Ok ws.
Proof.
  unfold update_priority_args, SegmentTree.writes.
  destruct ix as [i|idx]; destruct p as [x|xs]; simpl.
  - intros [= <-]. simpl. by eexists.
  - destruct xs as [|x [|y xs]]; [done| |done].
    intros [= <-]. simpl. by eexists.
  - intros [= <-]. simpl. by eexists.
  - destruct (bool_decide (length xs = 1%nat) || bool_decide (length idx = length xs))
      eqn:Hlen; [|done].
    intros [= <-].
    destruct xs as [|x [|y xs]]; simpl in *.
    + apply bool_decide_eq_true_1 in Hlen.
      rewrite bool_decide_eq_true_2 by done. by eexists.
    + by eexists.
    + apply bool_decide_eq_true_1 in Hlen.
      rewrite bool_decide_eq_true_2 by (by rewrite length_fmap, <- Hlen).
      by eexists.
Qed.

Lemma setitem_after_args {V} (inj : R → V) (ix : index) (p p' : priority)
    (eps alpha : R) (t : list V) (e : exn) :
  update_priority_args ix p = Ok p' →
  SegmentTree.setitem inj ix (stored_priority eps alpha p') t = Raise e →
  e = IndexError.
Proof.
  intros [ws Hws]%(writes_after_args _ _ _ eps alpha).
  unfold SegmentTree.setitem. rewrite Hws.
  by case_match; intros [= <-].
Qed.

(** X10: [update_priority] tests its arguments before it writes.  An
    integer index with an array of other than one priority, and an array
    of indices with an array of priorities of another length that is not
    1, raise [RuntimeError]; no index with no priority raises
    [ValueError]; and whenever the call raises anything but the
    [IndexError] of a slot outside the trees, the buffer is left as it
    was. *)
Theorem update_priority_rejects_before_writing {A} (self : PrioritizedReplayBuffer A)
    (i : Z) (idx : list Z) (ps : list R) :
  (length ps ≠ 1%nat →
     update_priority (IInt i) (PArr ps) self = (Raise RuntimeError, self)) ∧
  (length ps ≠ 1%nat → length idx ≠ length ps →
     update_priority (IArr idx) (PArr ps) self = (Raise RuntimeError, self)) ∧
  update_priority (IArr []) (PArr []) self = (Raise ValueError, self) ∧
  (∀ ix p e self',
     update_priority ix p self = (Raise e, self') → e ≠ IndexError → self' = self).
Proof.
  split; [|split; [|split]].
  - intros H. unfold update_priority, bind, raise.
    destruct ps as [|x [|y ps]]; simpl in *; done.
  - intros H1 H2. unfold update_priority, bind, raise. simpl.
    rewrite (bool_decide_eq_false_2 (length ps = 1%nat)) by done.
    by rewrite (bool_decide_eq_false_2 (length idx = length ps)) by done.
  - reflexivity.
  - intros ix p e self'. rewrite update_priority_steps.
    destruct (update_priority_args ix p) as [p'|e0] eqn:Hargs; [|by intros [= _ <-]].
    destruct (np_max p') as [m|e0]; [|by intros [= _ <-]]. simpl.
    destruct (SegmentTree.setitem id ix _ (_sum_tree self)) as [ts|e0] eqn:Hs.
    + destruct (SegmentTree.setitem Fin ix _ (_min_tree self)) as [tm|e0] eqn:Hm; [done|].
      intros [= <- _] Hne. by apply (setitem_after_args _ _ _ _ _ _ _ _ Hargs) in Hm.
    + intros [= <- _] Hne. by apply (setitem_after_args _ _ _ _ _ _ _ _ Hargs) in Hs.
Qed.

Lemma update_priority_rejects_before_writing_witness :
  update_priority (IInt 0) (PArr [1; 2]) pfresh = (Raise RuntimeError, pfresh) ∧
  update_priority (IArr [0%Z; 1%Z; 2%Z]) (PArr [1; 2]) pfresh
  = (Raise RuntimeError, pfresh).
Proof.
  destruct (update_priority_rejects_before_writing pfresh 0 [0%Z; 1%Z; 2%Z] [1; 2])
    as (H1 & H2 & _).
  split; [apply H1|apply H2]; simpl; lia.
Defined.

(** X11: [update_priority] is idempotent for every index and priority,
    arrays with repeated slots included: when a call returns, the same
    call made again returns and leaves the buffer, trees and
    [max_priority] included, as the first call left it. *)
Theorem update_priority_twice {A} (self self1 : PrioritizedReplayBuffer A)
    (ix : index) (p : priority) :
  update_priority ix p self = (Ok tt, self1) →
  update_priority ix p self1 = (Ok tt, self1).
Proof.
  rewrite !update_priority_steps.
  destruct (update_priority_args ix p) as [p'|e]; [|done].
  destruct (np_max p') as [m|e]; [|done]. simpl.
  destruct (SegmentTree.setitem id ix _ (_sum_tree self)) as [ts|e] eqn:Hs; [|done].
  destruct (SegmentTree.setitem Fin ix _ (_min_tree self)) as [tm|e] eqn:Hm; [|done].
  intros [= <-]. simpl.
  rewrite (setitem_idem _ _ _ _ _ Hs), (setitem_idem _ _ _ _ _ Hm).
  unfold set_min_tree, set_sum_tree, set_max_priority. simpl.
  by rewrite py_max_idem.
Qed.

Lemma update_priority_twice_witness :
  let self1 : PrioritizedReplayBuffer payload :=
    mkPrioritizedReplayBuffer (fresh 4) 1 1 0
      [np_power (5 + 0) 1; 0; np_power (4 + 0) 1; 0]
      [Fin (np_power (5 + 0) 1); PosInf; Fin (np_power (4 + 0) 1); PosInf] 5 in
  update_priority (IArr [0%Z; 2%Z; 0%Z]) (PArr [3; 4; 5]) self1 = (Ok tt, self1).
Proof.
  intros self1.
  apply (update_priority_twice pfresh).
  assert (H1 : Rmax 3 4 = 4) by (apply Rmax_right; lra).
  assert (H2 : Rmax 4 5 = 5) by (apply Rmax_right; lra).
  unfold update_priority, bind, min_tree_setitem. simpl.
  rewrite H1, H2, (py_max_lt 1 5) by lra. reflexivity.
Defined.

Section Frames.
Context {A : Type}.
Implicit Types self : PrioritizedReplayBuffer A.

Lemma write_all_other {V} (inj : R → V) ws : ∀ (t : list V) (k : nat),
  Forall (λ w, Z.to_nat (fst w) ≠ k) ws →
  SegmentTree.write_all inj ws t !! k = t !! k.
Proof.
  induction ws as [|w ws IH]; intros t k Hall; [done|].
  inversion Hall as [|? ? Hw Hall']; subst.
  change (SegmentTree.write_all inj (w :: ws) t)
    with (SegmentTree.write_all inj ws (<[Z.to_nat (fst w) := inj (snd w)]> t)).
  rewrite IH by done. by rewrite list_lookup_insert_ne.
Qed.

(** A write of one float to slots that are all leaves of the tree. *)
Lemma setitem_float_spec {V} (inj : R → V) (ix : index) (x : R) (t : list V) :
  Forall (λ i, (0 ≤ i < Z.of_nat (length t))%Z) (index_list ix) →
  ∃ t', SegmentTree.setitem inj ix (PFloat x) t = Ok t' ∧
        length t' = length t ∧
        (∀ i, i ∈ index_list ix → t' !! Z.to_nat i = Some (inj x)) ∧
        (∀ j : nat, Z.of_nat j ∉ index_list ix → t' !! j = t !! j).
Proof.
  intros Hr.
  assert (Hall : forallb (λ w, SegmentTree.in_range t (fst w))
                   ((λ i, (i, x)) <$> index_list ix) = true).
  { apply forallb_forall. intros w Hw. apply list_elem_of_In in Hw.
    apply list_elem_of_fmap in Hw as (i & -> & Hi).
    rewrite Forall_forall in Hr. specialize (Hr i Hi).
    unfold SegmentTree.in_range. simpl. by apply bool_decide_eq_true_2. }
  destruct (SegmentTree.setitem inj ix (PFloat x) t) as [t'|e] eqn:Hset.
  2:{ unfold SegmentTree.setitem, SegmentTree.writes in Hset. by rewrite Hall in Hset. }
  exists t'. split; [done|].
  split; [|split].
  - unfold SegmentTree.setitem, SegmentTree.writes in Hset. rewrite Hall in Hset.
    injection Hset as <-. apply write_all_length.
  - intros i Hi. by eapply setitem_float_lookup.
  - intros j Hj.
    unfold SegmentTree.setitem, SegmentTree.writes in Hset. rewrite Hall in Hset.
    injection Hset as <-. apply write_all_other.
    apply Forall_fmap, Forall_forall. intros i Hi. simpl.
    rewrite Forall_forall in Hr. specialize (Hr i Hi).
    intros Heq. apply Hj. by replace (Z.of_nat j) with i by lia.
Qed.

End Frames.

(** X12: [update_priority] with one priority [p] for slots inside the
    capacity returns, writes [(p + eps) ** alpha] to the leaves of these
    slots in both trees, leaves every other leaf and the ring as they
    were, and sets [max_priority] to [max(max_priority, p)]. *)
Theorem update_priority_writes_given_slots {A} (self : PrioritizedReplayBuffer A)
    (ix : index) (p : R) :
  trees_sized self →
  Forall (λ i, (0 ≤ i < _capacity (ring self))%Z) (index_list ix) →
  let rho := np_power (p + _eps self) (_alpha self) in
  ∃ self',
    update_priority ix (PFloat p) self = (Ok tt, self') ∧
    ring self' = ring self ∧
    _max_priority self' = py_max (_max_priority self) p ∧
    (∀ i, i ∈ index_list ix →
       _sum_tree self' !! Z.to_nat i = Some rho ∧
       _min_tree self' !! Z.to_nat i = Some (Fin rho)) ∧
    (∀ j : nat, Z.of_nat j ∉ index_list ix →
       _sum_tree self' !! j = _sum_tree self !! j ∧
       _min_tree self' !! j = _min_tree self !! j).
Proof.
  intros [Hs Hm] Hr rho.
  destruct (setitem_float_spec id ix rho (_sum_tree self)) as (ts & Hts & _ & Hts1 & Hts2).
  { eapply Forall_impl; [exact Hr|]. simpl. lia. }
  destruct (setitem_float_spec Fin ix rho (_min_tree self)) as (tm & Htm & _ & Htm1 & Htm2).
  { eapply Forall_impl; [exact Hr|]. simpl. lia. }
  rewrite update_priority_steps.
  assert (Hargs : update_priority_args ix (PFloat p) = Ok (PFloat p)) by by destruct ix.
  rewrite Hargs. simpl. fold rho. rewrite Hts, Htm.
  eexists. split; [done|]. simpl.
  split; [done|]. split; [done|]. split.
  - intros i Hi. split; [by apply Hts1|by apply Htm1].
  - intros j Hj. split; [by apply Hts2|by apply Htm2].
Qed.

Lemma update_priority_writes_given_slots_witness :
  let rho := np_power (3 + _eps pfresh) (_alpha pfresh) in
  ∃ self',
    update_priority (IArr [0%Z; 2%Z]) (PFloat 3) pfresh = (Ok tt, self') ∧
    ring self' = ring pfresh ∧
    _max_priority self' = py_max (_max_priority pfresh) 3 ∧
    (∀ i, i ∈ index_list (IArr [0%Z; 2%Z]) →
       _sum_tree self' !! Z.to_nat i = Some rho ∧
       _min_tree self' !! Z.to_nat i = Some (Fin rho)) ∧
    (∀ j : nat, Z.of_nat j ∉ index_list (IArr [0%Z; 2%Z]) →
       _sum_tree self' !! j = _sum_tree pfresh !! j ∧
       _min_tree self' !! j = _min_tree pfresh !! j).
Proof.
  apply (update_priority_writes_given_slots pfresh (IArr [0%Z; 2%Z]) 3).
  - split; reflexivity.
  - repeat (apply Forall_cons_2; [simpl; lia|]). apply Forall_nil_2.
Defined.

(** X13: on a prioritized buffer that satisfies [prioritized_wf], [add]
    with a priority [p] returns the slot of the cursor, stores the payload
    there and [(p + eps) ** alpha] at the leaf of that slot in both trees,
    sets [max_priority] to [max(max_priority, p)], and keeps
    [prioritized_wf]. *)
Theorem prioritized_add_stores_payload_and_priority {A}
    (self : PrioritizedReplayBuffer A) (x : A) (p : R) :
  prioritized_wf self →
  let slot := _cursor (ring self) in
  let rho := np_power (p + _eps self) (_alpha self) in
  ∃ self',
    PrioritizedReplayBuffer_add x (Some (PFloat p)) self = (Ok (IInt slot), self') ∧
    _storage (ring self') !! Z.to_nat slot = Some x ∧
    _sum_tree self' !! Z.to_nat slot = Some rho ∧
    _min_tree self' !! Z.to_nat slot = Some (Fin rho) ∧
    _max_priority self' = py_max (_max_priority self) p ∧
    prioritized_wf self'.
Proof.
  intros Hwf slot rho.
  pose proof Hwf as ((Hcap & Hcur & Hlen & Hfill) & [Hs Hm] & _ & _).
  destruct (setitem_float_spec id (IInt slot) rho (_sum_tree self)) as (ts & Hts & _ & Hts1 & _).
  { apply Forall_cons_2; [|apply Forall_nil_2]. subst slot. lia. }
  destruct (setitem_float_spec Fin (IInt slot) rho (_min_tree self)) as (tm & Htm & _ & Htm1 & _).
  { apply Forall_cons_2; [|apply Forall_nil_2]. subst slot. lia. }
  assert (Hadd : ∃ r', ReplayBuffer_add x (ring self) = (Ok slot, r') ∧
                       _storage r' !! Z.to_nat slot = Some x).
  { unfold Py.len in *.
    destruct (decide (Z.of_nat (length (_storage (ring self))) < _capacity (ring self))%Z)
      as [Hlt|Hge].
    - rewrite add_append by (unfold Py.len; lia). eexists. split; [done|]. simpl.
      subst slot. rewrite Hfill by lia. rewrite Nat2Z.id.
      by rewrite lookup_app_r, Nat.sub_diag by lia.
    - rewrite add_overwrite by (unfold Py.len; lia). eexists. split; [done|]. simpl.
      apply list_lookup_insert_eq. subst slot. lia. }
  destruct Hadd as (r' & Hadd & Hx).
  assert (Hrun : PrioritizedReplayBuffer_add x (Some (PFloat p)) self
                 = (Ok (IInt slot),
                    mkPrioritizedReplayBuffer r' (_alpha self) (_beta self) (_eps self)
                      ts tm (py_max (_max_priority self) p))).
  { unfold PrioritizedReplayBuffer_add, _add_or_extend, bind, get, ret, lift, modify,
      super, sum_tree_setitem, min_tree_setitem. simpl.
    rewrite Hadd. simpl. fold rho. rewrite Hts. simpl. rewrite Htm. reflexivity. }
  eexists. split; [exact Hrun|]. simpl.
  split; [done|]. split; [apply Hts1; apply list_elem_of_here|].
  split; [apply Htm1; apply list_elem_of_here|]. split; [done|].
  by eapply (prioritized_wf_add_or_extend (inl x)).
Qed.

Lemma prioritized_add_stores_payload_and_priority_witness :
  let slot := _cursor (ring pfresh) in
  let rho := np_power (2 + _eps pfresh) (_alpha pfresh) in
  ∃ self',
    PrioritizedReplayBuffer_add pA (Some (PFloat 2)) pfresh = (Ok (IInt slot), self') ∧
    _storage (ring self') !! Z.to_nat slot = Some pA ∧
    _sum_tree self' !! Z.to_nat slot = Some rho ∧
    _min_tree self' !! Z.to_nat slot = Some (Fin rho) ∧
    _max_priority self' = py_max (_max_priority pfresh) 2 ∧
    prioritized_wf self'.
Proof.
  apply (prioritized_add_stores_payload_and_priority pfresh pA 2).
  apply (prioritized_wf_init 4 1 1 0); [lia|apply init_pfresh].
Defined.

Section Sampling.
Context {A : Type}.
Implicit Types self : PrioritizedReplayBuffer A.

Lemma scan_bounds (t : list R) : ∀ (i : Z) (acc m : R) (k : Z),
  SegmentTree.scan t i acc m = Some k → (i ≤ k < i + Z.of_nat (length t))%Z.
Proof.
  induction t as [|x t IH]; intros i acc m k H; simpl in H; [done|].
  case_bool_decide.
  - injection H as <-. simpl. lia.
  - apply IH in H. simpl. lia.
Qed.


Lemma scan_lower_bound_spec (t : list R) (mass : list R) (idx : list Z) :
  SegmentTree.scan_lower_bound t mass = Ok idx →
  length idx = length mass ∧
  Forall (λ k, (0 ≤ k < Z.of_nat (length t))%Z) idx.
Proof.
  revert idx. induction mass as [|m mass IH]; intros idx H; simpl in H.
  { injection H as <-. split; [done|constructor]. }
  destruct (SegmentTree.scan t 0 0 m) as [k|] eqn:Hk; [|done].
  destruct (SegmentTree.scan_lower_bound t mass) as [idx'|e]; [|done].
  injection H as <-. destruct (IH idx' eq_refl) as [Hl Hall].
  split; [simpl; by rewrite Hl|]. constructor; [|done].
  apply scan_bounds in Hk. lia.
Qed.



Lemma getitem_Ok_range (l : list A) (i : Z) (x : A) :
  Py.getitem l i = Ok x → (- Py.len l ≤ i < Py.len l)%Z.
Proof.
  intros H. destruct (decide (- Py.len l ≤ i < Py.len l)%Z) as [|Hn]; [done|].
  by rewrite getitem_invalid in H.
Qed.


Lemma gather_clipped (l : list A) (idx0 : list Z) (data : list A) :
  Forall (λ k, (0 ≤ k)%Z) idx0 →
  gather l (clip_max (Py.len l - 1) idx0) = Ok data →
  Forall (λ i, (0 ≤ i < Py.len l)%Z) (clip_max (Py.len l - 1) idx0) ∧
  Forall2 (λ i x, l !! Z.to_nat i = Some x) (clip_max (Py.len l - 1) idx0) data.
Proof.
  intros Hpos. revert data. unfold clip_max.
  induction Hpos as [|k idx0 Hk _ IH]; intros data H; simpl in H.
  { injection H as <-. split; constructor. }
  destruct (Py.getitem l _) as [x|e] eqn:Hx; [|done].
  destruct (gather l _) as [xs|e] eqn:Hxs; [|done].
  injection H as <-. destruct (IH xs eq_refl) as [H1 H2].
  pose proof (getitem_Ok_range _ _ _ Hx) as Hr.
  assert (Hi : (0 ≤ Z.min k (Py.len l - 1) < Py.len l)%Z) by lia.
  destruct (getitem_valid _ _ Hr) as (y & Hy & Hget).
  rewrite Hx in Hget. injection Hget as <-.
  rewrite Z.mod_small in Hy by lia.
  split; simpl; by constructor.
Qed.

End Sampling.

(** X14: what a successful [PrioritizedReplayBuffer._sample] returns.
    One slot, one payload and one weight for each mass drawn; every slot
    is occupied, that is in [[0, len)], also when the scan of the sum
    tree ends past the storage, since the slots are clipped to [len - 1];
    each payload is the one stored at its slot; the buffer is left as it
    was. *)
Theorem sample_returns_occupied_slots {A} (self self' : PrioritizedReplayBuffer A)
    (mass : list R) (data : list A) (weight : list R) (idx : list Z) :
  _sample mass self = (Ok (data, weight, idx), self') →
  self' = self ∧
  length idx = length mass ∧
  length data = length mass ∧
  length weight = length mass ∧
  Forall (λ i, (0 ≤ i < Py.len (_storage (ring self)))%Z) idx ∧
  Forall2 (λ i x, _storage (ring self) !! Z.to_nat i = Some x) idx data.
Proof.
  intros H.
  unfold _sample, bind, get, lift, ret, raise in H. simpl in H.
  case_bool_decide; [done|].
  destruct (le0_inf _); [done|].
  destruct (SegmentTree.scan_lower_bound _ _) as [idx0|e] eqn:Hscan; [|done].
  destruct (gather _ _) as [data0|e] eqn:Hg; [|done].
  destruct (sum_tree_gather _ _) as [ws|e] eqn:Hws; [|done].
  injection H as <- <- <- <-.
  destruct (scan_lower_bound_spec _ _ _ Hscan) as [Hl0 Hpos].
  destruct (gather_clipped (_storage (ring self)) idx0 data0) as [Hin Hdata]; [|done|].
  { eapply Forall_impl; [exact Hpos|]. simpl. lia. }
  pose proof (Forall2_length _ _ _ Hdata) as Hld.
  assert (Hw : length (clip_max (Py.len (_storage (ring self)) - 1) idx0) = length ws).
  { eapply Forall2_length.
    apply (sum_tree_gather_Forall2 (λ _, True) _ _ _ Hws). by apply Forall_forall. }
  assert (Hlc : length (clip_max (Py.len (_storage (ring self)) - 1) idx0) = length mass).
  { unfold clip_max. by rewrite length_fmap. }
  split; [done|]. split; [done|]. split; [lia|].
  split; [rewrite length_fmap; lia|]. done.
Qed.

Lemma sample_returns_occupied_slots_witness :
  let self : PrioritizedReplayBuffer payload :=
    mkPrioritizedReplayBuffer (mkReplayBuffer [pA; pB] 2 0) 1 1 0
      [1; 2] [Fin 1; Fin 2] 2 in
  let idx := [0%Z; 1%Z] in
  let data := [pA; pB] in
  let weight := [np_power (1 / 1) (- (1)); np_power (2 / 1) (- (1))] in
  self = self ∧
  length idx = length [1 / 2; 3 / 2] ∧
  length data = length [1 / 2; 3 / 2] ∧
  length weight = length [1 / 2; 3 / 2] ∧
  Forall (λ i, (0 ≤ i < Py.len (_storage (ring self)))%Z) idx ∧
  Forall2 (λ i x, _storage (ring self) !! Z.to_nat i = Some x) idx data.
Proof.
  intros self idx data weight.
  apply (sample_returns_occupied_slots self self [1 / 2; 3 / 2] data weight idx).
  assert (Hmin : Rmin 1 2 = 1) by (apply Rmin_left; lra).
  unfold _sample, bind. simpl.
  unfold SegmentTree.sum_query, SegmentTree.min_query. simpl.
  rewrite Hmin.
  rewrite (bool_decide_eq_false_2 (1 + (2 + 0) <= 0)) by lra. simpl.
  rewrite (bool_decide_eq_false_2 (1 <= 0)) by lra. simpl.
  rewrite (bool_decide_eq_true_2 (1 / 2 < 0 + 1)) by lra.
  rewrite (bool_decide_eq_false_2 (3 / 2 < 0 + 1)) by lra.
  rewrite (bool_decide_eq_true_2 (3 / 2 < 0 + 1 + 2)) by lra. simpl.
  reflexivity.
Defined.

Section SampleSteps.
Context {A B W : Type}.
Implicit Types self : PrioritizedReplayBuffer A.



End SampleSteps.







Close Scope R_scope.

(** ** Collation *)

Section StackTensors.
Context {T : Type}.
Implicit Types rows : list (list T).

Lemma zip_star_columns (k : nat) rows :
  rows ≠ [] → Forall (λ r, length r = k) rows →
  zip_star rows = (λ j, column j rows) <$> seq 0 k.
Proof.
  intros Hne Hall. induction Hall as [|r rest Hr Hrest IH]; [done|].
  destruct rest as [|r' rest].
  - simpl. apply list_eq. intros j. rewrite !list_lookup_fmap.
    destruct (decide (j < k)%nat) as [Hj|Hj].
    + rewrite lookup_seq_lt by done. simpl. unfold column. simpl.
      destruct (lookup_lt_is_Some_2 r j ltac:(lia)) as [x Hx]. by rewrite Hx.
    + rewrite lookup_seq_ge by lia. rewrite lookup_ge_None_2 by lia. done.
  - change (zip_star (r :: r' :: rest)) with (zip_with cons r (zip_star (r' :: rest))).
    rewrite IH by done. apply list_eq. intros j.
    rewrite lookup_zip_with, !list_lookup_fmap.
    destruct (decide (j < k)%nat) as [Hj|Hj].
    + rewrite lookup_seq_lt by done. simpl.
      destruct (lookup_lt_is_Some_2 r j ltac:(lia)) as [x Hx].
      unfold column. cbn [omap list_omap]. by rewrite Hx.
    + rewrite lookup_seq_ge by lia. rewrite lookup_ge_None_2 by lia. done.
Qed.

Lemma column_Forall2 (k j : nat) rows :
  (j < k)%nat → Forall (λ r, length r = k) rows →
  Forall2 (λ r x, r !! j = Some x) rows (column j rows).
Proof.
  intros Hj Hall. induction Hall as [|r rest Hr _ IH]; [constructor|].
  unfold column. cbn [omap list_omap].
  destruct (lookup_lt_is_Some_2 r j ltac:(lia)) as [x Hx]. rewrite Hx.
  by constructor.
Qed.

Lemma tuple_of_Ok {X Y} (f : X → result Y) (xs : list X) (ys : list Y) :
  tuple_of f xs = Ok ys → Forall2 (λ x y, f x = Ok y) xs ys.
Proof.
  revert ys. induction xs as [|x xs IH]; intros ys; simpl.
  - intros [= <-]. constructor.
  - destruct (f x) as [y|e] eqn:Hy; [|done].
    destruct (tuple_of f xs) as [ys'|e]; [|done].
    intros [= <-]. constructor; [done|by apply IH].
Qed.

Lemma tuple_of_all_Ok {X Y} (f : X → result Y) (xs : list X) :
  Forall (λ x, ∃ y, f x = Ok y) xs → ∃ ys, tuple_of f xs = Ok ys.
Proof.
  induction 1 as [|x xs [y Hy] _ [ys IH]]; simpl; [by eexists|].
  rewrite Hy, IH. by eexists.
Qed.

End StackTensors.

(** X18: [stack_tensors] transposes.  Of no row it makes the empty tuple.
    Of one or more rows of [k] tensors each it stacks, for each position
    [j < k] in turn, the tensors the rows have at [j], taken in the order
    of the rows: it returns if and only if every one of these [k] stacks
    does, and then with [k] tensors, the one at [j] being the stack of
    column [j]. *)
Theorem stack_tensors_transposes {T} (torch_stack : list T → result T)
    (rows : list (list T)) (k : nat) :
  stack_tensors torch_stack [] = Ok [] ∧
  (rows ≠ [] → Forall (λ r, length r = k) rows →
   stack_tensors torch_stack rows
   = tuple_of torch_stack ((λ j, column j rows) <$> seq 0 k) ∧
   ((∀ j, (j < k)%nat → ∃ t, torch_stack (column j rows) = Ok t) →
    ∃ out, stack_tensors torch_stack rows = Ok out) ∧
   ∀ out, stack_tensors torch_stack rows = Ok out →
     length out = k ∧
     ∀ j t, out !! j = Some t →
       length (column j rows) = length rows ∧
       Forall2 (λ r x, r !! j = Some x) rows (column j rows) ∧
       torch_stack (column j rows) = Ok t).
Proof.
  split; [done|]. intros Hne Hall.
  assert (Heq : stack_tensors torch_stack rows
                = tuple_of torch_stack ((λ j, column j rows) <$> seq 0 k)).
  { unfold stack_tensors. by rewrite (zip_star_columns k). }
  split; [done|]. split.
  - intros Hcols. rewrite Heq. apply tuple_of_all_Ok.
    apply Forall_fmap, Forall_forall. intros j Hj%elem_of_seq. simpl.
    apply Hcols. lia.
  - intros out Hout. rewrite Heq in Hout. apply tuple_of_Ok in Hout.
    pose proof (Forall2_length _ _ _ Hout) as Hlen.
    rewrite length_fmap, length_seq in Hlen. split; [done|].
    intros j t Hj.
    assert (Hjk : (j < k)%nat) by (rewrite Hlen; by eapply lookup_lt_Some).
    pose proof (column_Forall2 k j rows Hjk Hall) as Hcol.
    split; [symmetry; by eapply Forall2_length|]. split; [done|].
    eapply (Forall2_lookup_lr _ _ _ j) in Hout; [exact Hout| |exact Hj].
    rewrite list_lookup_fmap, lookup_seq_lt by done. done.
Qed.

Lemma stack_tensors_transposes_witness :
  stack_tensors (λ ts : list (list payload), Ok (concat ts))
    [[[pA]; [pB; pC]]; [[pD]; [pE; pF]]; [[pG]; [pH; pA]]]
  = Ok [[pA; pD; pG]; [pB; pC; pE; pF; pH; pA]].
Proof.
  destruct (stack_tensors_transposes (λ ts : list (list payload), Ok (concat ts))
              [[[pA]; [pB; pC]]; [[pD]; [pE; pF]]; [[pG]; [pH; pA]]] 2%nat)
    as [_ H].
  destruct H as [H _]; [done|by repeat constructor|].
  rewrite H. reflexivity.
Defined.
